(** * A bounded FIFO queue of integers on a circular buffer

    Shallow embedding of [queue_native.go] (type [NativeIntQ], a circular
    buffer guarded by one mutex and two condition variables) and of the
    skeleton queue of the same package (type [Skeleton], the counters
    without the buffer).

    - Go's [int] is taken to be 64 bits wide and is modelled as [Z]; the
      additions and subtractions of the source are wrapped explicitly
      ([wrap]) and [%] is the truncated remainder, which panics on a zero
      divisor ([go_rem]).
    - The slice [queue] is created by [make([]int, size, size)] and is only
      ever indexed, so its length and its capacity coincide; it is modelled
      as a [list Z], with the bounds check of every index expression
      written out ([index], [store]).
    - Every method body runs with the mutex held from its first statement
      to its return (the deferred [Unlock]), except while parked inside
      [Wait].  A method is therefore a state transformer over the record
      which ends by returning, by parking on a condition variable, or by a
      run-time panic; the signals it issues are collected in order. *)

From Stdlib Require Import ZArith Lia.
From stdpp Require Import base tactics option list relations strings pretty.

Local Open Scope Z_scope.

(** ** Go integers *)

Definition int_min : Z := - 2 ^ 63.
Definition int_max : Z := 2 ^ 63 - 1.

Definition int_range (z : Z) : Prop := int_min <= z <= int_max.

(** Two's complement wrap-around of a 64 bit signed integer. *)
Definition wrap (z : Z) : Z := (z + 2 ^ 63) mod 2 ^ 64 - 2 ^ 63.

(** Run-time panics that the modelled statements can raise. *)
Inductive panic : Type :=
  | IndexOutOfRange (i len : Z)
  | DivideByZero
  | MakesliceLenOutOfRange.

(** [a % b]: truncated remainder, a run-time panic when [b] is zero. *)
Definition go_rem (a b : Z) : panic + Z :=
  if b =? 0 then inl DivideByZero else inr (Z.rem a b).

(** ** Slices of [int] *)

Definition len (s : list Z) : Z := Z.of_nat (Datatypes.length s).

(** The slice is never resliced or appended to: capacity and length agree. *)
Definition cap (s : list Z) : Z := len s.

(** [make([]int, size, size)]: zeroed elements; a negative size panics.
    The limit that the allocator puts on very large sizes is not modelled. *)
Definition make (size : Z) : panic + list Z :=
  if size <? 0 then inl MakesliceLenOutOfRange
  else inr (replicate (Z.to_nat size) 0).

(** [s[i]] as an expression. *)
Definition index (s : list Z) (i : Z) : panic + Z :=
  if (0 <=? i) && (i <? len s) then
    match s !! Z.to_nat i with
    | Some x => inr x
    | None => inl (IndexOutOfRange i (len s))
    end
  else inl (IndexOutOfRange i (len s)).

(** [s[i] = x] as a statement. *)
Definition store (s : list Z) (i x : Z) : panic + list Z :=
  if (0 <=? i) && (i <? len s) then inr (<[Z.to_nat i := x]> s)
  else inl (IndexOutOfRange i (len s)).

(** ** Errors *)

Inductive error : Type := errors_New (msg : string).

Definition QueueFull : error := errors_New "queue is full".
Definition QueueEmpty : error := errors_New "queue is empty".

(** ** The queue *)

(** The two condition variables of the struct; both share its mutex. *)
Inductive cond : Type := putcv | getcv.

Global Instance cond_eq_dec : EqDecision cond.
Proof. solve_decision. Defined.

Module NativeIntQ.

(** The data fields of [struct NativeIntQ].  The mutex [mtx] and the wait
    lists of [putcv] and [getcv] belong to the scheduler state of the
    [Monitor] module. *)
Record t : Type := mk {
  queue : list Z;
  head : Z;
  tail : Z;
  length : Z;
  capacity : Z;
}.

(** How a method body ends. *)
Inductive outcome (A : Type) : Type :=
  | Done (a : A) (q : t) (signals : list cond)
  | Waits (c : cond)
  | Panics (p : panic).
Arguments Done {A} a q signals.
Arguments Waits {A} c.
Arguments Panics {A} p.

(** State, signal log and panic monad of the method bodies. *)
Definition M (A : Type) : Type := t -> outcome A.

Global Instance M_ret : MRet M := fun A a q => Done a q [].

Global Instance M_bind : MBind M := fun A B k m q =>
  match m q with
  | Done a q1 s1 =>
      match k a q1 with
      | Done b q2 s2 => Done b q2 (s1 ++ s2)
      | Waits c => Waits c
      | Panics p => Panics p
      end
  | Waits c => Waits c
  | Panics p => Panics p
  end.

Definition gets {A} (f : t -> A) : M A := fun q => Done (f q) q [].
Definition modify (f : t -> t) : M unit := fun q => Done tt (f q) [].
Definition lift {A} (r : panic + A) : M A :=
  fun q => match r with inl p => Panics p | inr a => Done a q [] end.

(** [c.Signal()] *)
Definition Signal (c : cond) : M unit := fun q => Done tt q [c].

(** [for p { c.Wait() }]: when [p] holds the goroutine releases the mutex
    and parks on [c].  Go's [Wait] returns only after a [Signal], with the
    mutex held again, and the loop then evaluates [p] anew.  In the source
    every such loop is the first statement after [Lock], so a goroutine
    that is woken continues exactly as one that enters the method. *)
Definition wait_while (p : t -> bool) (c : cond) : M unit :=
  fun q => if p q then Waits c else Done tt q [].

Definition set_queue (s : list Z) (q : t) : t :=
  mk s (head q) (tail q) (length q) (capacity q).
Definition set_head (h : Z) (q : t) : t :=
  mk (queue q) h (tail q) (length q) (capacity q).
Definition set_tail (tl : Z) (q : t) : t :=
  mk (queue q) (head q) tl (length q) (capacity q).
Definition set_length (n : Z) (q : t) : t :=
  mk (queue q) (head q) (tail q) n (capacity q).

(** The statements shared by [TryPut] and [Put]:
      nvq.queue[nvq.tail] = value
      nvq.tail = (nvq.tail+1) % nvq.capacity
      nvq.length++
      nvq.getcv.Signal() *)
Definition insert_at_tail (value : Z) : M unit :=
  s ← gets queue; tl ← gets tail;
  s' ← lift (store s tl value);
  modify (set_queue s');;
  tl ← gets tail; c ← gets capacity;
  r ← lift (go_rem (wrap (tl + 1)) c);
  modify (set_tail r);;
  n ← gets length;
  modify (set_length (wrap (n + 1)));;
  Signal getcv.

(** The statements shared by [Get] and [TryGet]:
      value := nvq.queue[nvq.head]
      nvq.head = (nvq.head + 1) % nvq.capacity
      nvq.length-- *)
Definition remove_head : M Z :=
  s ← gets queue; h ← gets head;
  value ← lift (index s h);
  c ← gets capacity;
  r ← lift (go_rem (wrap (h + 1)) c);
  modify (set_head r);;
  n ← gets length;
  modify (set_length (wrap (n - 1)));;
  mret value.

Definition TryPut (value : Z) : M (option error) :=
  n ← gets length; c ← gets capacity;
  if n =? c then mret (Some QueueFull)
  else insert_at_tail value;; mret None.

Definition Put (value : Z) : M unit :=
  wait_while (fun q => length q =? capacity q) putcv;;
  insert_at_tail value.

Definition Get : M Z :=
  wait_while (fun q => length q =? 0) getcv;;
  value ← remove_head;
  Signal putcv;;
  mret value.

Definition TryGet : M (Z * option error) :=
  n ← gets length;
  r ← (if 0 <? n then value ← remove_head; mret (value, None)
        else mret (0, Some QueueEmpty));
  Signal putcv;;
  mret r.

Definition Len : M Z := gets length.

Definition Cap : M Z := gets (fun q => cap (queue q)).

Definition Close : M unit := mret tt.

(** [fmt.Sprintf("Native Len:%v Cap:%v", nvq.Len(), nvq.Cap())]; [%v] of an
    [int] is its decimal representation. *)
Definition String : M string :=
  l ← Len; c ← Cap;
  mret ("Native Len:" +:+ pretty l +:+ " Cap:" +:+ pretty c).

(** [NewNativeQueue]: the only fallible statement is [make]. *)
Definition NewNativeQueue (size : Z) : panic + t :=
  match make size with
  | inl p => inl p
  | inr s => inr (mk s 0 0 0 size)
  end.

(** ** Calls and single-goroutine runs *)

(** A call of one of the methods of the queue. *)
Inductive op : Type :=
  | OpTryPut (value : Z)
  | OpPut (value : Z)
  | OpGet
  | OpTryGet
  | OpLen
  | OpCap
  | OpClose
  | OpString.

(** What a call returns to its caller. *)
Inductive reply : Type :=
  | RErr (e : option error)
  | RUnit
  | RInt (z : Z)
  | RIntErr (z : Z) (e : option error)
  | RStr (s : string).

Definition call (o : op) : M reply :=
  match o with
  | OpTryPut v => e ← TryPut v; mret (RErr e)
  | OpPut v => Put v;; mret RUnit
  | OpGet => z ← Get; mret (RInt z)
  | OpTryGet => r ← TryGet; mret (RIntErr r.1 r.2)
  | OpLen => z ← Len; mret (RInt z)
  | OpCap => z ← Cap; mret (RInt z)
  | OpClose => Close;; mret RUnit
  | OpString => s ← String; mret (RStr s)
  end.

(** How a run of calls made by a single goroutine ends: all calls returned,
    or a call parked on a condition variable that nobody will ever signal,
    or a call panicked. *)
Inductive ending : Type :=
  | Idle (q : t)
  | Parked (o : op) (c : cond) (q : t)
  | Crashed (o : op) (p : panic).

(** The calls [ops] made one after the other by a single goroutine,
    with the replies of the calls that returned. *)
Fixpoint run (ops : list op) (q : t) : list (op * reply) * ending :=
  match ops with
  | [] => ([], Idle q)
  | o :: ops' =>
      match call o q with
      | Done r q' _ => let (h, e) := run ops' q' in ((o, r) :: h, e)
      | Waits c => ([], Parked o c q)
      | Panics p => ([], Crashed o p)
      end
  end.

(** The values written by the calls of a history that inserted one. *)
Fixpoint enqueued (h : list (op * reply)) : list Z :=
  match h with
  | [] => []
  | (OpTryPut v, RErr None) :: h' => v :: enqueued h'
  | (OpPut v, RUnit) :: h' => v :: enqueued h'
  | _ :: h' => enqueued h'
  end.

(** The values handed out by the calls of a history that removed one. *)
Fixpoint dequeued (h : list (op * reply)) : list Z :=
  match h with
  | [] => []
  | (OpGet, RInt z) :: h' => z :: dequeued h'
  | (OpTryGet, RIntErr z None) :: h' => z :: dequeued h'
  | _ :: h' => dequeued h'
  end.

(** ** Structural invariant and abstraction *)

(** The invariants of the data model, together with the two facts about
    the representation that they rely on: [capacity] is the size of the
    buffer, and it is an [int]. *)
Record wf (q : t) : Prop := {
  wf_cap : capacity q = cap (queue q);
  wf_int : capacity q <= int_max;
  wf_length : 0 <= length q <= capacity q;
  wf_head : 0 <= head q < capacity q;
  wf_tail : 0 <= tail q < capacity q;
  wf_ring : tail q = (head q + length q) mod capacity q;
}.

(** The state after a successful insertion of [value]. *)
Definition inserted (value : Z) (q : t) : t :=
  mk (<[Z.to_nat (tail q) := value]> (queue q)) (head q)
     ((tail q + 1) mod capacity q) (length q + 1) (capacity q).

(** The state after a successful removal. *)
Definition removed (q : t) : t :=
  mk (queue q) ((head q + 1) mod capacity q) (tail q)
     (length q - 1) (capacity q).

(** The stored elements, oldest first: the [length] slots from [head] on,
    wrapping around the end of the buffer. *)
Definition contents (q : t) : list Z :=
  take (Z.to_nat (length q)) (rotate (Z.to_nat (head q)) (queue q)).

(** Same capacity and same number of slots. *)
Definition same_frame (q q' : t) : Prop :=
  capacity q' = capacity q /\ len (queue q') = len (queue q).

(** The state of a queue made with capacity zero. *)
Definition zero_queue : t := mk [] 0 0 0 0.

(** The states in which no call can panic: the well-formed ones and the
    empty buffer of capacity zero. *)
Definition safe (q : t) : Prop := wf q \/ q = zero_queue.

(** The non-blocking calls. *)
Definition is_try (o : op) : bool :=
  match o with OpTryPut _ | OpTryGet => true | _ => false end.

(** What the non-blocking calls reply when they fail. *)
Definition try_failure (o : op) : reply :=
  match o with
  | OpTryPut _ => RErr (Some QueueFull)
  | _ => RIntErr 0 (Some QueueEmpty)
  end.


(** The state in which a run ends, unless it panicked. *)
Definition ending_state (e : ending) : option t :=
  match e with
  | Idle q => Some q
  | Parked _ _ q => Some q
  | Crashed _ _ => None
  end.

End NativeIntQ.

(** The summary as the specification words it: ["Len:<n> Cap:<m>"]. *)
Definition summary_as_specified (n m : Z) : string :=
  "Len:" +:+ pretty n +:+ " Cap:" +:+ pretty m.

(** ** Reference model: a list of at most [n] elements

    Written from the description of the operations, not from the code:
    insertion appends at the back unless [n] elements are stored, removal
    takes the front unless the list is empty; the blocking variants wait
    in exactly the cases in which the other variants report an error.
    Two points that the description leaves open are taken from the
    implementation: the value that accompanies [QueueEmpty] is 0, and the
    diagnostic summary, no part of the FIFO contract, has its wording. *)
Module Fifo.

Import NativeIntQ.

Inductive outcome : Type :=
  | Done (r : reply) (l : list Z)
  | Blocks.

Definition describe (n : Z) (l : list Z) : string :=
  "Native Len:" +:+ pretty (len l) +:+ " Cap:" +:+ pretty n.

Definition call (n : Z) (o : op) (l : list Z) : outcome :=
  match o with
  | OpTryPut v =>
      if len l =? n then Done (RErr (Some QueueFull)) l
      else Done (RErr None) (l ++ [v])
  | OpPut v => if len l =? n then Blocks else Done RUnit (l ++ [v])
  | OpGet => match l with [] => Blocks | x :: l' => Done (RInt x) l' end
  | OpTryGet =>
      match l with
      | [] => Done (RIntErr 0 (Some QueueEmpty)) l
      | x :: l' => Done (RIntErr x None) l'
      end
  | OpLen => Done (RInt (len l)) l
  | OpCap => Done (RInt n) l
  | OpClose => Done RUnit l
  | OpString => Done (RStr (describe n l)) l
  end.

Inductive ending : Type :=
  | Idle (l : list Z)
  | Parked (o : op) (l : list Z).

Fixpoint run (n : Z) (ops : list op) (l : list Z)
  : list (op * reply) * ending :=
  match ops with
  | [] => ([], Idle l)
  | o :: ops' =>
      match call n o l with
      | Done r l' => let (h, e) := run n ops' l' in ((o, r) :: h, e)
      | Blocks => ([], Parked o l)
      end
  end.

End Fifo.

(** The view of the ending of a run that the reference model has; a run
    that panicked has none. *)
Definition abstract_ending (e : NativeIntQ.ending) : option Fifo.ending :=
  match e with
  | NativeIntQ.Idle q => Some (Fifo.Idle (NativeIntQ.contents q))
  | NativeIntQ.Parked o _ q => Some (Fifo.Parked o (NativeIntQ.contents q))
  | NativeIntQ.Crashed _ _ => None
  end.

Definition ending_contents (e : Fifo.ending) : list Z :=
  match e with Fifo.Idle l => l | Fifo.Parked _ l => l end.

(** ** Goroutines sharing one queue

    The mutex makes every method body a critical section: between [Lock]
    and the return, or between [Lock] and the parking inside [Wait], no
    other goroutine touches the fields.  A step of the system is therefore
    one goroutine taking the mutex and running its call until it returns,
    parks or panics.  [Wait] releases the mutex and parks in one atomic
    action, and wakes only on a [Signal]; a goroutine that was woken has to
    take the mutex again and then evaluates the condition of its loop anew
    (see [wait_while]).  [Signal] wakes one goroutine parked on the
    condition variable, if there is any; which one is left open here.
    [Len], [Cap] and [String] take no mutex; they read [length], which is
    either the value before or the value after a concurrent call, and the
    size of the buffer, which never changes. *)
Module Monitor.

Import NativeIntQ.

Inductive goroutine : Type :=
  | Calling (o : op) (rest : list op)
  | Waiting (c : cond) (o : op) (rest : list op)
  | Finished
  | Panicked (o : op) (p : panic).

(** [history] lists the calls that returned, in the order in which they
    left their critical section, each with the goroutine that made it. *)
Record system : Type := mk_system {
  shared : t;
  goroutines : list goroutine;
  history : list (nat * (op * reply));
}.

(** What a goroutine does after a call returned. *)
Definition continue (rest : list op) : goroutine :=
  match rest with
  | [] => Finished
  | o :: rest' => Calling o rest'
  end.

Definition woken (g : goroutine) : goroutine :=
  match g with
  | Waiting _ o rest => Calling o rest
  | _ => g
  end.

Definition parked_on (c : cond) (g : goroutine) : bool :=
  match g with
  | Waiting c' _ _ => bool_decide (c = c')
  | _ => false
  end.

(** The positions, counted from [j], of the goroutines parked on [c]. *)
Fixpoint waiters (c : cond) (j : nat) (gs : list goroutine) : list nat :=
  match gs with
  | [] => []
  | g :: gs' =>
      (if parked_on c g then [j] else []) ++ waiters c (S j) gs'
  end.

(** [c.Signal()]: every way of waking one goroutine parked on [c]; no
    change when none is parked. *)
Definition signal_options (c : cond) (gs : list goroutine)
  : list (list goroutine) :=
  match waiters c 0%nat gs with
  | [] => [gs]
  | js => (fun j => alter woken j gs) <$> js
  end.

(** The signals of a call, in the order in which it issued them. *)
Fixpoint deliver_options (cs : list cond) (gs : list goroutine)
  : list (list goroutine) :=
  match cs with
  | [] => [gs]
  | c :: cs' => gs1 ← signal_options c gs; deliver_options cs' gs1
  end.

(** Goroutine [i] takes the mutex and runs its call. *)
Definition fire (i : nat) (sys : system) : list system :=
  match goroutines sys !! i with
  | Some (Calling o rest) =>
      match call o (shared sys) with
      | Done r q' signals =>
          (fun gs => mk_system q' gs (history sys ++ [(i, (o, r))])) <$>
            deliver_options signals (<[i := continue rest]> (goroutines sys))
      | Waits c =>
          [mk_system (shared sys)
             (<[i := Waiting c o rest]> (goroutines sys)) (history sys)]
      | Panics p =>
          [mk_system (shared sys)
             (<[i := Panicked o p]> (goroutines sys)) (history sys)]
      end
  | _ => []
  end.

(** All the systems one step away. *)
Definition successors (sys : system) : list system :=
  i ← seq 0 (Datatypes.length (goroutines sys)); fire i sys.

Definition step (sys sys' : system) : Prop := sys' ∈ successors sys.

(** The scenario of the blocking test: capacity 1, a consumer calling
    [Get] and a producer calling [Put(42)]. *)
Definition fresh1 : t := mk [0] 0 0 0 1.

Definition scenario : system :=
  mk_system fresh1 [Calling OpGet []; Calling (OpPut 42) []] [].

(** The consumer ran first and is parked. *)
Definition consumer_blocked : system :=
  mk_system fresh1 [Waiting getcv OpGet []; Calling (OpPut 42) []] [].

(** The producer has inserted 42 and its signal has woken the consumer. *)
Definition producer_done : system :=
  mk_system (mk [42] 0 0 1 1) [Calling OpGet []; Finished]
    [(1%nat, (OpPut 42, RUnit))].

(** The consumer has returned with 42. *)
Definition consumer_done : system :=
  mk_system (mk [42] 0 0 0 1) [Finished; Finished]
    [(1%nat, (OpPut 42, RUnit)); (0%nat, (OpGet, RInt 42))].

End Monitor.

(** ** Vocabulary for the wake-up protocol *)
Module Protocol.

Import NativeIntQ Monitor.

Definition b2z (b : bool) : Z := if b then 1 else 0.

(** The number of goroutines that satisfy [P]. *)
Fixpoint count (P : goroutine -> bool) (gs : list goroutine) : Z :=
  match gs with
  | [] => 0
  | g :: gs' => b2z (P g) + count P gs'
  end.

(** About to take the mutex for a [Get], or for a [Put]. *)
Definition calling_get (g : goroutine) : bool :=
  match g with Calling OpGet _ => true | _ => false end.
Definition calling_put (g : goroutine) : bool :=
  match g with Calling (OpPut _) _ => true | _ => false end.


Definition panicked (g : goroutine) : bool :=
  match g with Panicked _ _ => true | _ => false end.

(** Only [Get] parks on [getcv] and only [Put] parks on [putcv]. *)
Definition well_parked (g : goroutine) : bool :=
  match g with
  | Waiting getcv OpGet _ => true
  | Waiting putcv (OpPut _) _ => true
  | Waiting _ _ _ => false
  | _ => true
  end.

(** A goroutine that has not parked or panicked. *)
Definition unparked (g : goroutine) : bool :=
  match g with Calling _ _ | Finished => true | _ => false end.

(** No wake-up is lost: while a consumer is parked, at least as many
    [Get] calls are about to run as elements are stored, and while a
    producer is parked, at least as many [Put] calls are about to run as
    slots are free. *)
Definition no_lost_wakeup (sys : system) : Prop :=
  Forall (fun g => well_parked g = true) (goroutines sys) /\
  (0 < count (parked_on getcv) (goroutines sys) ->
   length (shared sys) <= count calling_get (goroutines sys)) /\
  (0 < count (parked_on putcv) (goroutines sys) ->
   capacity (shared sys) - length (shared sys)
     <= count calling_put (goroutines sys)).

End Protocol.

(** ** Closed forms used by the further properties *)

(** The element in the slot at [head]. *)
Definition front (q : NativeIntQ.t) : Z :=
  default 0 (NativeIntQ.queue q !! Z.to_nat (NativeIntQ.head q)).

(** What a call does in a well-formed state, written without the bounds
    checks, the wrap-around and the remainder that cannot fail there;
    [call_effect] proves that [call] computes exactly this. *)
Definition effect (o : NativeIntQ.op) (q : NativeIntQ.t)
  : NativeIntQ.outcome NativeIntQ.reply :=
  let full := (NativeIntQ.length q =? NativeIntQ.capacity q) in
  let empty := (NativeIntQ.length q =? 0) in
  match o with
  | NativeIntQ.OpTryPut v =>
      if full then NativeIntQ.Done (NativeIntQ.RErr (Some QueueFull)) q []
      else NativeIntQ.Done (NativeIntQ.RErr None)
             (NativeIntQ.inserted v q) [getcv]
  | NativeIntQ.OpPut v =>
      if full then NativeIntQ.Waits putcv
      else NativeIntQ.Done NativeIntQ.RUnit (NativeIntQ.inserted v q) [getcv]
  | NativeIntQ.OpGet =>
      if empty then NativeIntQ.Waits getcv
      else NativeIntQ.Done (NativeIntQ.RInt (front q))
             (NativeIntQ.removed q) [putcv]
  | NativeIntQ.OpTryGet =>
      if empty
      then NativeIntQ.Done (NativeIntQ.RIntErr 0 (Some QueueEmpty)) q [putcv]
      else NativeIntQ.Done (NativeIntQ.RIntErr (front q) None)
             (NativeIntQ.removed q) [putcv]
  | NativeIntQ.OpLen => NativeIntQ.Done (NativeIntQ.RInt (NativeIntQ.length q)) q []
  | NativeIntQ.OpCap =>
      NativeIntQ.Done (NativeIntQ.RInt (NativeIntQ.capacity q)) q []
  | NativeIntQ.OpClose => NativeIntQ.Done NativeIntQ.RUnit q []
  | NativeIntQ.OpString =>
      NativeIntQ.Done
        (NativeIntQ.RStr ("Native Len:" +:+ pretty (NativeIntQ.length q)
                          +:+ " Cap:" +:+ pretty (NativeIntQ.capacity q)))
        q []
  end.

(** The calls that only read: [Len], [Cap], [Close] and [String]. *)
Definition is_observer (o : NativeIntQ.op) : bool :=
  match o with
  | NativeIntQ.OpLen | NativeIntQ.OpCap
  | NativeIntQ.OpClose | NativeIntQ.OpString => true
  | _ => false
  end.

(** The signals that a call issues before it returns [r]. *)
Definition expected_signals (o : NativeIntQ.op) (r : NativeIntQ.reply)
  : list cond :=
  match o, r with
  | NativeIntQ.OpTryPut _, NativeIntQ.RErr None => [getcv]
  | NativeIntQ.OpPut _, _ => [getcv]
  | NativeIntQ.OpGet, _ => [putcv]
  | NativeIntQ.OpTryGet, _ => [putcv]
  | _, _ => []
  end.

(** ** The skeleton queue

    The second file of the package: [Skeleton] has the mutex, one
    condition variable [cvr] and the counters of a bounded queue, but no
    buffer; its own comment says that it will fail the tests.  The methods
    take and return [interface{}] values; a value passed in is ignored,
    so its type is left open, and the values handed out are [nil] and the
    boxed integer 0. *)
Module Skeleton.

(** The [interface{}] values that the methods produce. *)
Inductive iface : Type := Nil | Int (z : Z).

(** The data fields of [struct Skeleton]. *)
Record t : Type := mk {
  length : Z;
  capacity : Z;
}.

(** A method body returns, with the number of [cvr.Signal()] calls it
    made, or parks in [cvr.Wait()]; no statement of the skeleton can
    panic. *)
Inductive outcome (A : Type) : Type :=
  | Done (a : A) (q : t) (signals : nat)
  | Waits.
Arguments Done {A} a q signals.
Arguments Waits {A}.

Definition M (A : Type) : Type := t -> outcome A.

Global Instance M_ret : MRet M := fun A a q => Done a q 0%nat.

Global Instance M_bind : MBind M := fun A B k m q =>
  match m q with
  | Done a q1 s1 =>
      match k a q1 with
      | Done b q2 s2 => Done b q2 (s1 + s2)%nat
      | Waits => Waits
      end
  | Waits => Waits
  end.

Definition gets {A} (f : t -> A) : M A := fun q => Done (f q) q 0%nat.
Definition modify (f : t -> t) : M unit := fun q => Done tt (f q) 0%nat.

(** [skel.cvr.Signal()] *)
Definition Signal : M unit := fun q => Done tt q 1%nat.

(** [for p { skel.cvr.Wait() }], the first statement after [Lock]. *)
Definition wait_while (p : t -> bool) : M unit :=
  fun q => if p q then Waits else Done tt q 0%nat.

(** [skel.length++] and [skel.length--] *)
Definition incr : M unit :=
  modify (fun q => mk (wrap (length q + 1)) (capacity q)).
Definition decr : M unit :=
  modify (fun q => mk (wrap (length q - 1)) (capacity q)).

Definition TryPut {V : Type} (value : V) : M (option error) :=
  n ← gets length; c ← gets capacity;
  if n =? c then mret (Some QueueFull)
  else incr;; Signal;; mret None.

Definition Put {V : Type} (value : V) : M unit :=
  wait_while (fun q => length q =? capacity q);;
  incr;; Signal.

Definition Get : M iface :=
  wait_while (fun q => length q =? 0);;
  decr;; mret (Int 0).

Definition TryGet : M (iface * option error) :=
  n ← gets length;
  if 0 <? n then decr;; mret (Int 0, None)
  else mret (Nil, Some QueueEmpty).

Definition Len : M Z := gets length.

Definition Cap : M Z := gets capacity.

Definition String : M string := mret "".

(** [NewSkeletonQueue]: nothing is allocated, so no size is refused. *)
Definition NewSkeletonQueue (size : Z) : t := mk 0 size.

(** The calls of the skeleton; it has no [Close]. *)
Inductive op : Type :=
  | OpTryPut (value : Z)
  | OpPut (value : Z)
  | OpGet
  | OpTryGet
  | OpLen
  | OpCap
  | OpString.

Inductive reply : Type :=
  | RErr (e : option error)
  | RUnit
  | RVal (v : iface)
  | RValErr (v : iface) (e : option error)
  | RInt (z : Z)
  | RStr (s : string).

Definition call (o : op) : M reply :=
  match o with
  | OpTryPut v => e ← TryPut v; mret (RErr e)
  | OpPut v => Put v;; mret RUnit
  | OpGet => v ← Get; mret (RVal v)
  | OpTryGet => r ← TryGet; mret (RValErr r.1 r.2)
  | OpLen => z ← Len; mret (RInt z)
  | OpCap => z ← Cap; mret (RInt z)
  | OpString => s ← String; mret (RStr s)
  end.

Inductive ending : Type :=
  | Idle (q : t)
  | Parked (o : op) (q : t).

(** The calls [ops] made one after the other by a single goroutine. *)
Fixpoint run (ops : list op) (q : t) : list (op * reply) * ending :=
  match ops with
  | [] => ([], Idle q)
  | o :: ops' =>
      match call o q with
      | Done r q' _ => let (h, e) := run ops' q' in ((o, r) :: h, e)
      | Waits => ([], Parked o q)
      end
  end.

Definition ending_state (e : ending) : t :=
  match e with Idle q => q | Parked _ q => q end.

(** The same call on the queue with a buffer. *)
Definition to_native (o : op) : NativeIntQ.op :=
  match o with
  | OpTryPut v => NativeIntQ.OpTryPut v
  | OpPut v => NativeIntQ.OpPut v
  | OpGet => NativeIntQ.OpGet
  | OpTryGet => NativeIntQ.OpTryGet
  | OpLen => NativeIntQ.OpLen
  | OpCap => NativeIntQ.OpCap
  | OpString => NativeIntQ.OpString
  end.

(** What is left of a reply of the queue with a buffer when the values
    are forgotten: every value handed out becomes the boxed 0, the value
    that accompanies an error becomes [nil], the summary becomes the
    empty string. *)
Definition forget (r : NativeIntQ.reply) (o : op) : reply :=
  match o, r with
  | OpGet, NativeIntQ.RInt _ => RVal (Int 0)
  | _, NativeIntQ.RInt z => RInt z
  | _, NativeIntQ.RErr e => RErr e
  | _, NativeIntQ.RUnit => RUnit
  | _, NativeIntQ.RIntErr _ None => RValErr (Int 0) None
  | _, NativeIntQ.RIntErr _ (Some e) => RValErr Nil (Some e)
  | _, NativeIntQ.RStr _ => RStr ""
  end.

(** The number of calls of a history that inserted. *)
Definition inserts (h : list (op * reply)) : Z :=
  len (omap (fun x => match x with
                      | (OpTryPut v, RErr None) => Some v
                      | (OpPut v, RUnit) => Some v
                      | _ => None
                      end) h).

(** The number of calls of a history that removed. *)
Definition removals (h : list (op * reply)) : Z :=
  len (omap (fun x => match x with
                      | (OpGet, RVal _) => Some 0
                      | (OpTryGet, RValErr _ None) => Some 0
                      | _ => None
                      end) h).

End Skeleton.

(** ** The skeleton against the queue with a buffer *)

(** The counters of the skeleton are in range. *)
Definition skeleton_ok (q : Skeleton.t) : Prop :=
  0 <= Skeleton.length q <= Skeleton.capacity q /\
  Skeleton.capacity q <= int_max.

(** The replies that carry a value: [Get] hands out the boxed 0, [TryGet]
    the boxed 0 or [nil] with [QueueEmpty]. *)
Definition skeleton_reply (o : Skeleton.op) (r : Skeleton.reply) : Prop :=
  match o with
  | Skeleton.OpGet => r = Skeleton.RVal (Skeleton.Int 0)
  | Skeleton.OpTryGet =>
      r = Skeleton.RValErr (Skeleton.Int 0) None \/
      r = Skeleton.RValErr Skeleton.Nil (Some QueueEmpty)
  | _ => True
  end.

(** The two queues have the same counters. *)
Definition agree (qs : Skeleton.t) (qn : NativeIntQ.t) : Prop :=
  Skeleton.length qs = NativeIntQ.length qn /\
  Skeleton.capacity qs = NativeIntQ.capacity qn.

(** The history of the queue with a buffer, its values forgotten, as a
    history of the calls [ops] of the skeleton. *)
Definition forget_history (ops : list Skeleton.op)
    (h : list (NativeIntQ.op * NativeIntQ.reply))
  : list (Skeleton.op * Skeleton.reply) :=
  zip_with (fun o x => (o, Skeleton.forget x.2 o)) ops h.

(** Both runs end idle, or both are parked in the same call. *)
Definition endings_agree (es : Skeleton.ending) (en : NativeIntQ.ending)
  : Prop :=
  match es, en with
  | Skeleton.Idle qs, NativeIntQ.Idle qn => agree qs qn
  | Skeleton.Parked o qs, NativeIntQ.Parked o' _ qn =>
      o' = Skeleton.to_native o /\ agree qs qn
  | _, _ => False
  end.

(* ================================================================== *)
(** * Properties *)

Import NativeIntQ.

Ltac int_lia := unfold int_range, int_min, int_max in *; lia.

Section Arithmetic.

Lemma wrap_id z : int_range z -> wrap z = z.
Proof.
  unfold int_range, int_min, int_max, wrap. intros H.
  rewrite Z.mod_small; lia.
Qed.

Lemma go_rem_mod a b : 0 <= a -> 0 < b -> go_rem a b = inr (a mod b).
Proof.
  intros Ha Hb. unfold go_rem.
  destruct (Z.eqb_spec b 0) as [->|_]; [lia|].
  by rewrite Z.rem_mod_nonneg.
Qed.

End Arithmetic.

Section Steps.

Variable q : t.
Hypothesis Hwf : wf q.

Lemma wf_len : Z.of_nat (Datatypes.length (queue q)) = capacity q.
Proof. by rewrite (wf_cap q Hwf). Qed.

(** With room left, the insertion statements neither panic nor wrap. *)
Lemma insert_at_tail_room value :
  length q < capacity q ->
  insert_at_tail value q = Done tt (inserted value q) [getcv].
Proof.
  intros Hroom. destruct Hwf as [Hcap Hint Hlen Hhd Htl Hring].
  unfold insert_at_tail, mbind, M_bind, gets, modify, lift, Signal, store.
  simpl. unfold cap in Hcap. rewrite <- Hcap.
  destruct (Z.leb_spec 0 (tail q)); [|lia].
  destruct (Z.ltb_spec (tail q) (capacity q)); [|lia]. simpl.
  rewrite !wrap_id by int_lia.
  rewrite go_rem_mod by lia. simpl.
  by rewrite wrap_id by int_lia.
Qed.

(** With an element stored, the removal statements neither panic nor wrap. *)
Lemma remove_head_stored :
  0 < length q ->
  exists x, queue q !! Z.to_nat (head q) = Some x /\
    remove_head q = Done x (removed q) [].
Proof.
  intros Hpos. pose proof wf_len as Hl.
  destruct Hwf as [Hcap Hint Hlen Hhd Htl Hring].
  destruct (lookup_lt_is_Some_2 (queue q) (Z.to_nat (head q))) as [x Hx];
    [lia|].
  exists x. split; [done|].
  unfold remove_head, mbind, M_bind, gets, modify, lift, index.
  simpl. unfold cap in Hcap. rewrite <- Hcap.
  destruct (Z.leb_spec 0 (head q)); [|lia].
  destruct (Z.ltb_spec (head q) (capacity q)); [|lia]. simpl.
  rewrite Hx. simpl.
  rewrite !wrap_id by int_lia.
  rewrite go_rem_mod by lia. simpl.
  by rewrite wrap_id by int_lia.
Qed.

End Steps.

Section Abstraction.

Lemma contents_length q :
  wf q -> Datatypes.length (contents q) = Z.to_nat (length q).
Proof.
  intros Hwf. pose proof (wf_len q Hwf). destruct Hwf.
  unfold contents. rewrite length_take, length_rotate. lia.
Qed.

Lemma len_contents q : wf q -> len (contents q) = length q.
Proof.
  intros Hwf. unfold len. rewrite contents_length by done.
  destruct Hwf. lia.
Qed.

(** Element [i] of the contents sits [i] slots after [head], modulo the
    size of the buffer. *)
Lemma contents_lookup q (i : nat) :
  wf q -> (i < Z.to_nat (length q))%nat ->
  contents q !! i =
    queue q !! Z.to_nat ((head q + Z.of_nat i) mod capacity q).
Proof.
  intros Hwf Hi. pose proof (wf_len q Hwf) as Hl. destruct Hwf.
  unfold contents. rewrite lookup_take_lt by done.
  rewrite lookup_rotate_r by lia. unfold rotate_nat_add.
  by rewrite Hl, Z2Nat.id by lia.
Qed.

Lemma contents_lookup_ge q (i : nat) :
  (Z.to_nat (length q) <= i)%nat -> contents q !! i = None.
Proof. intros Hi. unfold contents. by apply lookup_take_ge. Qed.

Lemma wf_insert q value :
  wf q -> length q < capacity q ->
  wf (inserted value q).
Proof.
  intros [Hcap Hint Hlen Hhd Htl Hring] Hroom.
  split; simpl; try lia.
  - unfold cap, len in *. by rewrite length_insert.
  - apply Z.mod_pos_bound. lia.
  - rewrite Hring, Zplus_mod_idemp_l. f_equal. lia.
Qed.

Lemma wf_remove q :
  wf q -> 0 < length q ->
  wf (removed q).
Proof.
  intros [Hcap Hint Hlen Hhd Htl Hring] Hpos.
  split; simpl; try lia.
  - apply Z.mod_pos_bound. lia.
  - rewrite Hring, Zplus_mod_idemp_l. f_equal. lia.
Qed.

(** Writing at [tail] appends to the contents. *)
Lemma contents_insert q value :
  wf q -> length q < capacity q ->
  contents (inserted value q)
  = contents q ++ [value].
Proof.
  intros Hwf Hroom. pose proof (wf_len q Hwf) as Hl.
  destruct Hwf as [Hcap Hint Hlen Hhd Htl Hring].
  unfold contents. simpl.
  assert (Z.to_nat (tail q) =
          rotate_nat_add (Z.to_nat (head q)) (Z.to_nat (length q))
            (Datatypes.length (queue q))) as ->.
  { unfold rotate_nat_add. rewrite Hl, !Z2Nat.id by lia. by rewrite Hring. }
  rewrite rotate_insert_l by lia.
  replace (Z.to_nat (length q + 1)) with (S (Z.to_nat (length q))) by lia.
  rewrite (take_S_r _ _ value).
  - by rewrite take_insert_ge by lia.
  - apply list_lookup_insert_eq. rewrite length_rotate. lia.
Qed.

(** Reading at [head] takes the front of the contents. *)
Lemma contents_remove q x :
  wf q -> 0 < length q -> queue q !! Z.to_nat (head q) = Some x ->
  contents q =
    x :: contents (removed q).
Proof.
  intros Hwf Hpos Hx. pose proof (wf_remove q Hwf Hpos) as Hwf'.
  apply list_eq. intros [|j].
  - rewrite contents_lookup by (destruct Hwf; done || lia). simpl.
    rewrite Z.add_0_r, Z.mod_small by (destruct Hwf; lia). done.
  - simpl. destruct (decide (S j < Z.to_nat (length q))%nat) as [Hj|Hj].
    + rewrite !contents_lookup by (done || simpl; lia). simpl.
      rewrite Zplus_mod_idemp_l. do 3 f_equal. lia.
    + rewrite !contents_lookup_ge by (simpl; lia). done.
Qed.

End Abstraction.

Section Methods.

Lemma TryPut_full q value :
  length q = capacity q -> TryPut value q = Done (Some QueueFull) q [].
Proof.
  intros Hfull. unfold TryPut, mbind, M_bind, gets. simpl.
  by rewrite Hfull, Z.eqb_refl.
Qed.

Lemma TryPut_room q value :
  wf q -> length q < capacity q ->
  TryPut value q = Done None (inserted value q) [getcv].
Proof.
  intros Hwf Hroom. unfold TryPut, mbind, M_bind, gets. simpl.
  destruct (Z.eqb_spec (length q) (capacity q)); [lia|].
  by rewrite insert_at_tail_room.
Qed.

Lemma Put_full q value :
  length q = capacity q -> Put value q = Waits putcv.
Proof.
  intros Hfull. unfold Put, mbind, M_bind, wait_while.
  by rewrite Hfull, Z.eqb_refl.
Qed.

Lemma Put_room q value :
  wf q -> length q < capacity q ->
  Put value q = Done tt (inserted value q) [getcv].
Proof.
  intros Hwf Hroom. unfold Put, mbind, M_bind, wait_while.
  destruct (Z.eqb_spec (length q) (capacity q)); [lia|].
  by rewrite insert_at_tail_room.
Qed.

Lemma Get_empty q : length q = 0 -> Get q = Waits getcv.
Proof.
  intros Hempty. unfold Get, mbind, M_bind, wait_while.
  by rewrite Hempty.
Qed.

Lemma Get_stored q :
  wf q -> 0 < length q ->
  exists x, queue q !! Z.to_nat (head q) = Some x /\
    Get q = Done x (removed q) [putcv].
Proof.
  intros Hwf Hpos. destruct (remove_head_stored q Hwf Hpos) as (x & Hx & Hrm).
  exists x. split; [done|].
  unfold Get, mbind, M_bind, wait_while.
  destruct (Z.eqb_spec (length q) 0); [lia|].
  by rewrite Hrm.
Qed.

Lemma TryGet_empty q :
  length q <= 0 -> TryGet q = Done (0, Some QueueEmpty) q [putcv].
Proof.
  intros Hempty. unfold TryGet, mbind, M_bind, gets. simpl.
  by destruct (Z.ltb_spec 0 (length q)); [lia|].
Qed.

Lemma TryGet_stored q :
  wf q -> 0 < length q ->
  exists x, queue q !! Z.to_nat (head q) = Some x /\
    TryGet q = Done (x, None) (removed q) [putcv].
Proof.
  intros Hwf Hpos. destruct (remove_head_stored q Hwf Hpos) as (x & Hx & Hrm).
  exists x. split; [done|].
  unfold TryGet, mbind, M_bind, gets. simpl.
  destruct (Z.ltb_spec 0 (length q)); [|lia].
  by rewrite Hrm.
Qed.

End Methods.

Section Simulation.

Lemma contents_empty q : length q = 0 -> contents q = [].
Proof. intros H. unfold contents. by rewrite H. Qed.

(** Each call does on the buffer what the reference model does on the
    list of stored elements, and keeps the invariant. *)
Lemma call_refines q o :
  wf q ->
  match Fifo.call (capacity q) o (contents q) with
  | Fifo.Done r l =>
      exists q' s, call o q = Done r q' s /\ wf q' /\
        contents q' = l /\ capacity q' = capacity q
  | Fifo.Blocks => exists c, call o q = Waits c
  end.
Proof.
  intros Hwf. pose proof (len_contents q Hwf) as Hlen.
  pose proof (wf_length q Hwf) as Hrange.
  destruct o as [v|v| | | | | |]; simpl; unfold mbind, M_bind.
  - rewrite Hlen. destruct (Z.eqb_spec (length q) (capacity q)) as [Hf|Hf].
    + rewrite TryPut_full by done. by exists q, [].
    + rewrite TryPut_room by (done || lia).
      exists (inserted v q), [getcv]. split_and!; try done.
      * apply wf_insert; [done | lia].
      * apply contents_insert; [done | lia].
  - rewrite Hlen. destruct (Z.eqb_spec (length q) (capacity q)) as [Hf|Hf].
    + rewrite Put_full by done. by exists putcv.
    + rewrite Put_room by (done || lia).
      exists (inserted v q), [getcv]. split_and!; try done.
      * apply wf_insert; [done | lia].
      * apply contents_insert; [done | lia].
  - destruct (decide (length q = 0)) as [He|He].
    + rewrite contents_empty, Get_empty by done. by exists getcv.
    + destruct (Get_stored q) as (x & Hx & ->); [done | lia |].
      rewrite (contents_remove q x) by (done || lia).
      exists (removed q), [putcv]. split_and!; try done.
      apply wf_remove; [done | lia].
  - destruct (decide (length q = 0)) as [He|He].
    + rewrite contents_empty, TryGet_empty by (done || lia).
      exists q, [putcv]. split_and!; try done. by apply contents_empty.
    + destruct (TryGet_stored q) as (x & Hx & ->); [done | lia |].
      rewrite (contents_remove q x) by (done || lia).
      exists (removed q), [putcv]. split_and!; try done.
      apply wf_remove; [done | lia].
  - exists q, []. by rewrite Hlen.
  - exists q, []. split_and!; try done.
    unfold Cap, gets. simpl. by rewrite (wf_cap q Hwf).
  - by exists q, [].
  - exists q, []. split_and!; try done.
    unfold String, Len, Cap, mbind, M_bind, gets, Fifo.describe. simpl.
    by rewrite Hlen, (wf_cap q Hwf).
Qed.

(** A run on the buffer is a run of the reference model. *)
Lemma run_refines ops : forall q,
  wf q ->
  (run ops q).1 = (Fifo.run (capacity q) ops (contents q)).1 /\
  abstract_ending (run ops q).2 =
    Some (Fifo.run (capacity q) ops (contents q)).2.
Proof.
  induction ops as [|o ops IH]; intros q Hwf; [done|].
  simpl. pose proof (call_refines q o Hwf) as Hc.
  destruct (Fifo.call (capacity q) o (contents q)) as [r l|].
  - destruct Hc as (q' & s & -> & Hwf' & <- & Hcap).
    specialize (IH q' Hwf'). rewrite Hcap in IH.
    destruct (run ops q') as [h e].
    destruct (Fifo.run (capacity q) ops (contents q')) as [h' e'].
    simpl in *. destruct IH as [-> ->]. done.
  - destruct Hc as [c ->]. done.
Qed.

(** In the reference model the values come out in the order in which
    they went in. *)
Lemma fifo_order n ops : forall l,
  l ++ enqueued (Fifo.run n ops l).1 =
  dequeued (Fifo.run n ops l).1 ++ ending_contents (Fifo.run n ops l).2.
Proof.
  induction ops as [|o ops IH]; intros l; simpl.
  { by rewrite app_nil_r. }
  destruct o as [v|v| | | | | |]; simpl;
    repeat match goal with
    | |- context [if ?b then _ else _] => destruct b; simpl
    | |- context [match ?x with [] => _ | _ :: _ => _ end] =>
        destruct x; simpl
    end;
    try (by rewrite ?app_nil_r);
    match goal with
    | |- context [Fifo.run n ops ?l'] =>
        specialize (IH l'); destruct (Fifo.run n ops l') as [h e]
    end; simpl in *; try done.
  - by rewrite <- IH, <- app_assoc.
  - by rewrite <- IH, <- app_assoc.
  - by rewrite <- IH.
  - by rewrite <- IH.
Qed.

End Simulation.

Section Frame.

(** Inversion of a sequenced computation that returned. *)
Lemma bind_Done {A B} (m : M A) (k : A -> M B) q b q2 s :
  (m ≫= k) q = Done b q2 s ->
  exists a q1 s1 s2,
    m q = Done a q1 s1 /\ k a q1 = Done b q2 s2 /\ s = s1 ++ s2.
Proof.
  unfold mbind, M_bind. intros H.
  destruct (m q) as [a q1 s1| |]; [|done..].
  destruct (k a q1) as [b' q2' s2| |] eqn:Hk; [|done..].
  simplify_eq. by exists a, q1, s1, s2.
Qed.

Lemma insert_at_tail_frame value q a q' s :
  insert_at_tail value q = Done a q' s -> same_frame q q'.
Proof.
  unfold insert_at_tail, mbind, M_bind, gets, modify, lift, Signal,
    store, go_rem. cbn [queue tail capacity length head set_queue set_tail set_length].
  destruct (_ && _); [|done]. cbn [queue tail capacity length head set_queue set_tail set_length].
  destruct (capacity q =? 0); [done|]. intros H. simplify_eq.
  split; [done|]. cbn. unfold len. by rewrite length_insert.
Qed.

Lemma remove_head_frame q a q' s :
  remove_head q = Done a q' s -> same_frame q q'.
Proof.
  unfold remove_head, mbind, M_bind, gets, modify, lift, index, go_rem, mret, M_ret.
  cbn [queue tail capacity length head set_head set_length].
  destruct (_ && _); [|done]. destruct (_ !! _); [|done].
  cbn [queue tail capacity length head set_head set_length].
  destruct (capacity q =? 0); [done|]. intros H. by simplify_eq.
Qed.

Lemma same_frame_refl q : same_frame q q.
Proof. done. Qed.

(** No call, in any state whatsoever, changes [capacity] or the number of
    slots of the buffer. *)
Lemma call_frame q o r q' s :
  call o q = Done r q' s -> same_frame q q'.
Proof.
  destruct o as [v|v| | | | | |]; unfold call; intros H;
    apply bind_Done in H as (a & q1 & s1 & s2 & H & Hr & _);
    unfold mret, M_ret in Hr; simplify_eq.
  - unfold TryPut in H.
    apply bind_Done in H as (n & q2 & ? & ? & Hn & H & _).
    apply bind_Done in H as (c & q3 & ? & ? & Hc & H & _).
    unfold gets in *. simplify_eq.
    destruct (_ =? _); [unfold mret, M_ret in H; by simplify_eq|].
    apply bind_Done in H as (? & q4 & ? & ? & H & Hr & _).
    unfold mret, M_ret in Hr. simplify_eq.
    by eapply insert_at_tail_frame.
  - unfold Put in H.
    apply bind_Done in H as (? & q2 & ? & ? & Hw & H & _).
    unfold wait_while in Hw. destruct (_ =? _); simplify_eq.
    by eapply insert_at_tail_frame.
  - unfold Get in H.
    apply bind_Done in H as (? & q2 & ? & ? & Hw & H & _).
    unfold wait_while in Hw. destruct (_ =? _); simplify_eq.
    apply bind_Done in H as (? & q3 & ? & ? & H & Hr & _).
    apply bind_Done in Hr as (? & q4 & ? & ? & Hs & Hr & _).
    unfold Signal, mret, M_ret in *. simplify_eq.
    by eapply remove_head_frame.
  - unfold TryGet in H.
    apply bind_Done in H as (n & q2 & ? & ? & Hn & H & _).
    apply bind_Done in H as (? & q3 & ? & ? & H & Hr & _).
    apply bind_Done in Hr as (? & q4 & ? & ? & Hs & Hr & _).
    unfold Signal, gets, mret, M_ret in *. simplify_eq.
    destruct (_ <? _); [|by simplify_eq].
    apply bind_Done in H as (? & q5 & ? & ? & H & Hr & _).
    simplify_eq. by eapply remove_head_frame.
  - unfold Len, gets in H. by simplify_eq.
  - unfold Cap, gets in H. by simplify_eq.
  - unfold Close, mret, M_ret in H. by simplify_eq.
  - unfold String in H.
    apply bind_Done in H as (? & q2 & ? & ? & Hl & H & _).
    apply bind_Done in H as (? & q3 & ? & ? & Hc & H & _).
    unfold Len, Cap, gets, mret, M_ret in *. by simplify_eq.
Qed.

Lemma run_frame ops : forall q q',
  ending_state (run ops q).2 = Some q' -> same_frame q q'.
Proof.
  induction ops as [|o ops IH]; intros q q' H; simpl in H.
  { by simplify_eq. }
  destruct (call o q) as [r q1 s|c|p] eqn:Hc; simpl in H; simplify_eq;
    [|done].
  apply call_frame in Hc as [Hc1 Hc2].
  destruct (run ops q1) as [h e] eqn:Hr. simpl in H.
  destruct (IH q1 q') as [H1 H2]; [by rewrite Hr|].
  split; congruence.
Qed.

(** The replies to [Cap] in a run are the size of the buffer at its start. *)
Lemma run_cap_replies ops : forall q,
  Forall (fun x => x.1 = OpCap -> x.2 = RInt (cap (queue q))) (run ops q).1.
Proof.
  induction ops as [|o ops IH]; intros q; simpl; [done|].
  destruct (call o q) as [r q1 s|c|p] eqn:Hc; simpl; [|done..].
  specialize (IH q1). pose proof (call_frame _ _ _ _ _ Hc) as [_ Hl].
  destruct (run ops q1) as [h e]. simpl in *. constructor.
  - simpl. intros ->.
    unfold call, Cap, gets, mbind, M_bind, mret, M_ret in Hc.
    by simplify_eq.
  - unfold cap in *. by rewrite <- Hl.
Qed.

(** On a buffer of capacity zero every call returns without touching the
    state, or parks. *)
Lemma call_zero_queue o :
  match call o zero_queue with
  | Done r q' s => q' = zero_queue /\ (is_try o = true -> r = try_failure o)
  | Waits c => is_try o = false
  | Panics p => False
  end.
Proof. destruct o; vm_compute; split; done. Qed.

Lemma wf_safe_call q o :
  wf q -> match call o q with
          | Done r q' s => wf q'
          | Waits c => True
          | Panics p => False
          end.
Proof.
  intros Hwf. pose proof (call_refines q o Hwf) as H.
  destruct (Fifo.call (capacity q) o (contents q)).
  - by destruct H as (q' & s & -> & Hwf' & _).
  - by destruct H as (c & ->).
Qed.

Lemma safe_call q o :
  safe q -> match call o q with
            | Done r q' s => safe q'
            | Waits c => True
            | Panics p => False
            end.
Proof.
  intros [Hwf| ->].
  - pose proof (wf_safe_call q o Hwf) as H.
    destruct (call o q); [by left|done..].
  - pose proof (call_zero_queue o) as H.
    destruct (call o zero_queue); [right; tauto|done..].
Qed.

(** Started in a safe state, a run never panics. *)
Lemma safe_run ops : forall q,
  safe q -> exists q', ending_state (run ops q).2 = Some q' /\ safe q'.
Proof.
  induction ops as [|o ops IH]; intros q Hs; simpl; [by exists q|].
  pose proof (safe_call q o Hs) as H.
  destruct (call o q) as [r q1 s|c|p]; [|by exists q|done].
  destruct (IH q1 H) as (q' & He & Hs').
  destruct (run ops q1) as [h e]. by exists q'.
Qed.

Lemma wf_run ops : forall q,
  wf q -> exists q', ending_state (run ops q).2 = Some q' /\ wf q'.
Proof.
  induction ops as [|o ops IH]; intros q Hs; simpl; [by exists q|].
  pose proof (wf_safe_call q o Hs) as H.
  destruct (call o q) as [r q1 s|c|p]; [|by exists q|done].
  destruct (IH q1 H) as (q' & He & Hs').
  destruct (run ops q1) as [h e]. by exists q'.
Qed.

End Frame.

Section Construction.

Lemma NewNativeQueue_ok size :
  0 <= size ->
  NewNativeQueue size = inr (mk (replicate (Z.to_nat size) 0) 0 0 0 size).
Proof.
  intros H. unfold NewNativeQueue, make.
  by destruct (Z.ltb_spec size 0); [lia|].
Qed.

Lemma NewNativeQueue_wf size :
  0 < size <= int_max ->
  wf (mk (replicate (Z.to_nat size) 0) 0 0 0 size).
Proof.
  intros H. split; simpl; try lia.
  - unfold cap, len. rewrite length_replicate. lia.
  - by rewrite Z.mod_0_l by lia.
Qed.

End Construction.

Section Errors.



End Errors.

(* ================================================================== *)
(** * The properties of the specification *)

Section Sequential.

(** C1. On a queue made with a capacity [n > 0], any sequence of calls
    made by one goroutine gets the replies that the list-based FIFO of at
    most [n] elements gives, call by call, and blocks where it blocks;
    the buffer always holds the list of the model.  Hence the values
    enqueued are the values dequeued followed by those still stored, in
    this order; when the queue ends empty the two sequences are equal. *)
Theorem fifo_refinement n ops :
  0 < n <= int_max ->
  exists q0,
    NewNativeQueue n = inr q0 /\
    (run ops q0).1 = (Fifo.run n ops []).1 /\
    abstract_ending (run ops q0).2 = Some (Fifo.run n ops []).2 /\
    enqueued (run ops q0).1 =
      dequeued (run ops q0).1 ++ ending_contents (Fifo.run n ops []).2 /\
    (ending_contents (Fifo.run n ops []).2 = [] ->
     dequeued (run ops q0).1 = enqueued (run ops q0).1).
Proof.
  intros Hn. eexists. split; [apply NewNativeQueue_ok; lia|].
  pose proof (NewNativeQueue_wf n Hn) as Hwf.
  destruct (run_refines ops _ Hwf) as [Hh He].
  rewrite contents_empty in Hh, He by done. simpl in Hh, He.
  pose proof (fifo_order n ops []) as Hord. simpl in Hord.
  rewrite Hh. split_and!; try done.
  intros Hnil. rewrite Hord, Hnil. by rewrite app_nil_r.
Qed.

Lemma fifo_refinement_witness :
  0 < 2 <= int_max /\
  exists q0,
    NewNativeQueue 2 = inr q0 /\
    (run [OpPut 5; OpTryPut 6; OpTryPut 7; OpGet; OpPut 8; OpTryGet;
          OpGet; OpGet] q0).1 =
      (Fifo.run 2 [OpPut 5; OpTryPut 6; OpTryPut 7; OpGet; OpPut 8;
                   OpTryGet; OpGet; OpGet] []).1.
Proof.
  assert (0 < 2 <= int_max) as H by (unfold int_max; lia).
  split; [exact H|].
  destruct (fifo_refinement 2
    [OpPut 5; OpTryPut 6; OpTryPut 7; OpGet; OpPut 8; OpTryGet;
     OpGet; OpGet] H) as (q0 & H0 & H1 & _).
  exists q0. split; [exact H0 | exact H1].
Defined.

(** C2. Every call keeps the structural invariant ([0 <= length <=
    capacity], [head] and [tail] in [[0, capacity)], [tail = (head +
    length) mod capacity]) and none panics; so every state that a queue
    made with a capacity [n > 0] can reach satisfies it, and there
    [0 <= Len() <= Cap()]. *)
Theorem invariant_preserved n :
  0 < n <= int_max ->
  exists q0,
    NewNativeQueue n = inr q0 /\ wf q0 /\
    (forall q o, wf q ->
       match call o q with
       | Done _ q' _ => wf q'
       | Waits _ => True
       | Panics _ => False
       end) /\
    (forall ops, exists q,
       ending_state (run ops q0).2 = Some q /\ wf q /\
       exists l c, Len q = Done l q [] /\ Cap q = Done c q [] /\
                   0 <= l <= c).
Proof.
  intros Hn. eexists. split; [apply NewNativeQueue_ok; lia|].
  pose proof (NewNativeQueue_wf n Hn) as Hwf.
  split_and!; [done | apply wf_safe_call |].
  intros ops. destruct (wf_run ops _ Hwf) as (q & He & Hq).
  exists q. split_and!; [done..|].
  exists (length q), (cap (queue q)).
  pose proof (wf_cap q Hq). pose proof (wf_length q Hq).
  split_and!; [done..|lia|lia].
Qed.

Lemma invariant_preserved_witness :
  0 < 3 <= int_max /\
  exists q0, NewNativeQueue 3 = inr q0 /\ wf q0.
Proof.
  assert (0 < 3 <= int_max) as H by (unfold int_max; lia).
  split; [exact H|].
  destruct (invariant_preserved 3 H) as (q0 & H0 & H1 & _).
  exists q0. split; [exact H0 | exact H1].
Defined.

(** C3. In a state with [length = capacity], [TryPut] reports
    [QueueFull] and changes nothing (so [Len()] is unchanged); with
    [length < capacity] it writes the value at [queue[tail]], advances
    [tail] to [(tail + 1) mod capacity], increments [length], and reports
    success. *)
Theorem TryPut_full_or_room q value :
  wf q ->
  (length q = capacity q ->
     TryPut value q = Done (Some QueueFull) q []) /\
  (length q < capacity q ->
     TryPut value q =
       Done None
         (mk (<[Z.to_nat (tail q) := value]> (queue q)) (head q)
             ((tail q + 1) mod capacity q) (length q + 1) (capacity q))
         [getcv] /\
     <[Z.to_nat (tail q) := value]> (queue q) !! Z.to_nat (tail q)
       = Some value).
Proof.
  intros Hwf. split.
  - apply TryPut_full.
  - intros Hroom. split; [by apply TryPut_room|].
    apply list_lookup_insert_eq. pose proof (wf_len q Hwf).
    destruct Hwf. lia.
Qed.

Lemma TryPut_full_or_room_witness :
  wf (mk [4; 0] 0 1 1 2) /\
  TryPut 9 (mk [4; 0] 0 1 1 2) = Done None (mk [4; 9] 0 0 2 2) [getcv] /\
  wf (mk [4; 9] 0 0 2 2) /\
  TryPut 3 (mk [4; 9] 0 0 2 2) = Done (Some QueueFull) (mk [4; 9] 0 0 2 2) [].
Proof.
  assert (wf (mk [4; 0] 0 1 1 2)) as H1
    by (split; simpl; unfold int_max, cap, len; simpl; lia || reflexivity).
  assert (wf (mk [4; 9] 0 0 2 2)) as H2
    by (split; simpl; unfold int_max, cap, len; simpl; lia || reflexivity).
  split; [exact H1|]. split.
  - apply (proj1 (proj2 (TryPut_full_or_room (mk [4; 0] 0 1 1 2) 9 H1)
                    ltac:(simpl; lia))).
  - split; [exact H2|].
    apply (proj1 (TryPut_full_or_room (mk [4; 9] 0 0 2 2) 3 H2)
             ltac:(reflexivity)).
Defined.

(** C4. [TryGet] on an empty queue: evaluated on a fresh queue of
    capacity 1 it reports [QueueEmpty] with the state untouched, yet it
    does signal [putcv], the statement [nvq.putcv.Signal()] standing
    after the [if]/[else] and not inside the branch that removes; the
    failing branch of [TryPut] returns without any signal. *)
Theorem TryGet_empty_signals :
  NewNativeQueue 1 = inr (mk [0] 0 0 0 1) /\
  TryGet (mk [0] 0 0 0 1) =
    Done (0, Some QueueEmpty) (mk [0] 0 0 0 1) [putcv] /\
  TryPut 5 (mk [5] 0 0 1 1) = Done (Some QueueFull) (mk [5] 0 0 1 1) [].
Proof. by vm_compute. Qed.

(** C6. On a queue made with capacity 0 every [TryPut] reports
    [QueueFull] and every [TryGet] reports [QueueEmpty], in any sequence
    of such calls; the state never changes and no call panics, although
    a remainder by this capacity would. *)
Theorem zero_capacity_try ops :
  Forall (fun o => is_try o = true) ops ->
  NewNativeQueue 0 = inr zero_queue /\
  run ops zero_queue =
    (map (fun o => (o, try_failure o)) ops, Idle zero_queue) /\
  (forall a, go_rem a (capacity zero_queue) = inl DivideByZero).
Proof.
  intros Hops. split_and!; [done| |done].
  induction Hops as [|o ops Ho _ IH]; [done|].
  simpl. pose proof (call_zero_queue o) as Hc.
  destruct (call o zero_queue) as [r q' s|c|p].
  - destruct Hc as [-> Hr]. rewrite IH. by rewrite (Hr Ho).
  - congruence.
  - done.
Qed.

Lemma zero_capacity_try_witness :
  Forall (fun o => is_try o = true) [OpTryPut 1; OpTryGet; OpTryPut 2] /\
  run [OpTryPut 1; OpTryGet; OpTryPut 2] zero_queue =
    ([(OpTryPut 1, RErr (Some QueueFull));
      (OpTryGet, RIntErr 0 (Some QueueEmpty));
      (OpTryPut 2, RErr (Some QueueFull))], Idle zero_queue).
Proof.
  assert (Forall (fun o => is_try o = true)
            [OpTryPut 1; OpTryGet; OpTryPut 2]) as H
    by (repeat constructor).
  split; [exact H|].
  exact (proj1 (proj2 (zero_capacity_try _ H))).
Defined.




(** C8. On a queue made by [NewNativeQueue n], [n >= 0], [Cap()] replies
    [n] after any sequence of calls; no call changes [capacity] or the
    number of slots of the buffer. *)
Theorem Cap_fixed n ops :
  0 <= n <= int_max ->
  exists q0,
    NewNativeQueue n = inr q0 /\
    Forall (fun x => x.1 = OpCap -> x.2 = RInt n) (run ops q0).1 /\
    (exists q, ending_state (run ops q0).2 = Some q /\
       Cap q = Done n q [] /\ capacity q = n /\ len (queue q) = n) /\
    (forall q o r q' s, call o q = Done r q' s ->
       capacity q' = capacity q /\ len (queue q') = len (queue q)).
Proof.
  intros Hn. eexists. split; [apply NewNativeQueue_ok; lia|].
  set (q0 := mk (replicate (Z.to_nat n) 0) 0 0 0 n).
  assert (len (queue q0) = n) as Hlen.
  { simpl. unfold len. rewrite length_replicate. lia. }
  split_and!.
  - pose proof (run_cap_replies ops q0) as H. unfold cap in H.
    by rewrite Hlen in H.
  - assert (safe q0) as Hs.
    { destruct (decide (n = 0)) as [->|Hne]; [by right|].
      left. apply NewNativeQueue_wf. lia. }
    destruct (safe_run ops _ Hs) as (q & Hq & _). exists q.
    destruct (run_frame ops q0 q Hq) as [Hc Hl].
    split_and!; [done| |done|congruence].
    unfold Cap, gets, cap. by rewrite Hl, Hlen.
  - apply call_frame.
Qed.

Lemma Cap_fixed_witness :
  0 <= 2 <= int_max /\
  exists q0, NewNativeQueue 2 = inr q0 /\
    Forall (fun x => x.1 = OpCap -> x.2 = RInt 2)
      (run [OpPut 1; OpCap; OpGet; OpCap] q0).1.
Proof.
  assert (0 <= 2 <= int_max) as H by (unfold int_max; lia).
  split; [exact H|].
  destruct (Cap_fixed 2 [OpPut 1; OpCap; OpGet; OpCap] H)
    as (q0 & H0 & H1 & _).
  exists q0. split; [exact H0 | exact H1].
Defined.

(** C9. In a state with [length = 0], [TryGet] returns the value 0 along
    with the error [QueueEmpty]. *)
Theorem TryGet_empty_value q :
  length q = 0 ->
  exists s, TryGet q = Done (0, Some QueueEmpty) q s.
Proof. intros H. exists [putcv]. apply TryGet_empty. lia. Qed.

Lemma TryGet_empty_value_witness :
  length (mk [7; 8] 1 1 0 2) = 0 /\
  exists s, TryGet (mk [7; 8] 1 1 0 2) =
              Done (0, Some QueueEmpty) (mk [7; 8] 1 1 0 2) s.
Proof.
  split; [reflexivity|].
  exact (TryGet_empty_value (mk [7; 8] 1 1 0 2) eq_refl).
Defined.

(** C10, as amended.  In every state [String] returns the summary
    ["Native Len:<n> Cap:<m>"], [n] being what [Len] returns and [m] what
    [Cap] returns: the words of the specification after the prefix
    ["Native "]. *)
Theorem String_summary q :
  String q =
    Done ("Native " +:+ summary_as_specified (length q) (cap (queue q))) q []
  /\ Len q = Done (length q) q []
  /\ Cap q = Done (cap (queue q)) q [].
Proof. done. Qed.

(** C10, as stated, fails on a fresh queue of capacity 1. *)
Lemma String_not_as_specified :
  NewNativeQueue 1 = inr (mk [0] 0 0 0 1) /\
  String (mk [0] 0 0 0 1) = Done "Native Len:0 Cap:1" (mk [0] 0 0 0 1) [] /\
  String (mk [0] 0 0 0 1) <>
    Done (summary_as_specified 0 1) (mk [0] 0 0 0 1) [].
Proof. split_and!; [by vm_compute..|]. vm_compute. discriminate. Qed.

End Sequential.

Import Monitor.

Section Goroutines.

Lemma enqueued_app h1 h2 : enqueued (h1 ++ h2) = enqueued h1 ++ enqueued h2.
Proof.
  induction h1 as [|[o r] h1 IH]; [done|]. simpl.
  destruct o; try done; destruct r as [[e|]| | | |];
    simpl; by rewrite ?IH.
Qed.

Lemma dequeued_app h1 h2 : dequeued (h1 ++ h2) = dequeued h1 ++ dequeued h2.
Proof.
  induction h1 as [|[o r] h1 IH]; [done|]. simpl.
  destruct o; try done; destruct r as [| | |z [e|]|];
    simpl; by rewrite ?IH.
Qed.

(** A call that returns takes the front of the contents or appends to
    them, according to its reply, and keeps the invariant. *)
Lemma call_order q o r q' s :
  wf q -> call o q = Done r q' s ->
  wf q' /\
  contents q ++ enqueued [(o, r)] = dequeued [(o, r)] ++ contents q'.
Proof.
  intros Hwf Hc. pose proof (wf_safe_call q o Hwf) as Hwf'.
  rewrite Hc in Hwf'. split; [done|].
  destruct (run_refines [o] q Hwf) as [Hh He].
  pose proof (fifo_order (capacity q) [o] (contents q)) as Hord.
  rewrite <- Hh in Hord. simpl in Hh, He, Hord. rewrite Hc in *.
  destruct (Fifo.call (capacity q) o (contents q)) as [r1 l1|];
    simpl in *; by simplify_eq.
Qed.

(** One step of the system: the invariant is kept, and the history grows
    by at most the call that returned. *)
Lemma step_history sys sys' :
  step sys sys' -> wf (shared sys) ->
  wf (shared sys') /\
  exists ext,
    history sys' = history sys ++ ext /\
    (Datatypes.length ext <= 1)%nat /\
    contents (shared sys) ++ enqueued ext.*2 =
      dequeued ext.*2 ++ contents (shared sys').
Proof.
  unfold step, successors. intros Hs Hwf.
  apply list_elem_of_bind in Hs as (i & Hs & _). unfold fire in Hs.
  destruct (goroutines sys !! i) as [[o rest| | |]|]; try by inversion Hs.
  destruct (call o (shared sys)) as [r q' sg|c|pn] eqn:Hc.
  - apply list_elem_of_fmap in Hs as (gs & -> & _). simpl.
    destruct (call_order _ _ _ _ _ Hwf Hc) as [Hwf' Hord].
    split; [done|]. exists [(i, (o, r))]. split_and!; [done|simpl; lia|done].
  - apply list_elem_of_singleton in Hs as ->. simpl.
    split; [done|]. exists []. simpl.
    split_and!; [by rewrite app_nil_r|lia|by rewrite app_nil_r].
  - apply list_elem_of_singleton in Hs as ->. simpl.
    split; [done|]. exists []. simpl.
    split_and!; [by rewrite app_nil_r|lia|by rewrite app_nil_r].
Qed.

Lemma prefix_snoc_cases {A} (p l : list A) x :
  p `prefix_of` l ++ [x] -> p `prefix_of` l \/ p = l ++ [x].
Proof.
  intros [k Hk]. destruct k as [|y k _] using rev_ind.
  - right. by rewrite app_nil_r in Hk.
  - left. rewrite app_assoc in Hk. apply app_inj_tail in Hk as [-> _].
    by exists k.
Qed.

(** Along any execution, at every moment the values handed out so far
    are the first of the values stored before or inserted so far, in the
    same order. *)
Lemma steps_history sys sys' :
  rtc step sys sys' -> wf (shared sys) ->
  wf (shared sys') /\
  exists ext,
    history sys' = history sys ++ ext /\
    forall p, p `prefix_of` ext ->
      exists stored,
        contents (shared sys) ++ enqueued p.*2 = dequeued p.*2 ++ stored /\
        (p = ext -> stored = contents (shared sys')).
Proof.
  intros Hsteps Hwf. revert sys' Hsteps. apply rtc_ind_r.
  - split; [done|]. exists []. split; [by rewrite app_nil_r|].
    intros p Hp%prefix_nil_inv. subst p. simpl.
    exists (contents (shared sys)). by rewrite app_nil_r.
  - intros sys1 sys2 Hs1 Hs IH.
    destruct IH as (Hwf1 & ext1 & Hh1 & Hp1).
    destruct (step_history _ _ Hs Hwf1) as (Hwf2 & e & Hh2 & Hlen & Hord).
    split; [done|]. exists (ext1 ++ e).
    split; [by rewrite Hh2, Hh1, app_assoc|].
    destruct (Hp1 ext1) as (st1 & Heq1 & Hst1); [done|].
    specialize (Hst1 eq_refl). subst st1.
    destruct e as [|x [|y e]]; [| |simpl in Hlen; lia].
    + rewrite app_nil_r. simpl in Hord. rewrite app_nil_r in Hord.
      intros p Hp. destruct (Hp1 p Hp) as (st & Heq & Hst).
      exists st. split; [done|]. intros ->. rewrite <- Hord. by apply Hst.
    + intros p [Hp| ->]%prefix_snoc_cases.
      * destruct (Hp1 p Hp) as (st & Heq & Hst). exists st.
        split; [done|]. intros ->.
        by apply prefix_snoc_not in Hp.
      * exists (contents (shared sys2)). split; [|done].
        rewrite fmap_app, enqueued_app, dequeued_app, app_assoc, Heq1.
        by rewrite <- !app_assoc, Hord.
Qed.

(** A [Get] that takes the mutex while the queue is empty parks on
    [getcv] and leaves everything else as it is. *)
Lemma fire_Get_empty sys i rest :
  length (shared sys) = 0 ->
  goroutines sys !! i = Some (Calling OpGet rest) ->
  fire i sys =
    [mk_system (shared sys)
       (<[i := Waiting getcv OpGet rest]> (goroutines sys)) (history sys)].
Proof.
  intros Hempty Hi. unfold fire. rewrite Hi. unfold call, mbind, M_bind.
  by rewrite Get_empty.
Qed.

(** C5. Goroutines sharing the queue, in any interleaving.  A [Get] that
    runs while the queue is empty parks.  If, starting from a moment at
    which the queue is empty, a [Get] returns [v], then a [Put] or
    [TryPut] of [v] left its critical section after that moment and before
    the [Get] did, and it is the insertion whose rank among the insertions
    equals the rank of this [Get] among the removals: no other removal
    received it.  In the scenario with capacity 1 the consumer that runs
    first parks; the only execution from there is the producer's [Put(42)],
    whose signal wakes the consumer, and then the consumer's [Get]
    returning 42. *)
Theorem blocking_Get_delivery :
  (forall sys i rest,
     length (shared sys) = 0 ->
     goroutines sys !! i = Some (Calling OpGet rest) ->
     fire i sys =
       [mk_system (shared sys)
          (<[i := Waiting getcv OpGet rest]> (goroutines sys))
          (history sys)]) /\
  (forall sys sys' i before after v,
     wf (shared sys) -> length (shared sys) = 0 ->
     rtc step sys sys' ->
     history sys' = history sys ++ before ++ (i, (OpGet, RInt v)) :: after ->
     enqueued before.*2 !! Datatypes.length (dequeued before.*2) = Some v) /\
  (NewNativeQueue 1 = inr (shared scenario) /\
   step scenario consumer_blocked /\
   successors consumer_blocked = [producer_done] /\
   successors producer_done = [consumer_done] /\
   successors consumer_done = [] /\
   history consumer_done !! 1%nat = Some (0%nat, (OpGet, RInt 42))).
Proof.
  split; [apply fire_Get_empty|]. split.
  - intros sys sys' i before after v Hwf Hempty Hsteps Hh.
    destruct (steps_history _ _ Hsteps Hwf) as (_ & ext & Hext & Hp).
    rewrite Hext in Hh. apply app_inv_head in Hh. subst ext.
    destruct (Hp (before ++ [(i, (OpGet, RInt v))])) as (st & Heq & _).
    { exists after. by rewrite <- app_assoc. }
    rewrite contents_empty in Heq by done.
    rewrite fmap_app, enqueued_app, dequeued_app in Heq. simpl in Heq.
    rewrite app_nil_r, <- app_assoc in Heq. rewrite Heq.
    by apply list_lookup_middle.
  - split_and!; try (vm_compute; reflexivity).
    unfold step. vm_compute. apply list_elem_of_here.
Qed.

Lemma blocking_Get_delivery_witness :
  wf (shared consumer_blocked) /\
  length (shared consumer_blocked) = 0 /\
  rtc step consumer_blocked consumer_done /\
  enqueued [(OpPut 42, RUnit)] !! 0%nat = Some 42.
Proof.
  assert (wf (shared consumer_blocked)) as Hwf
    by (split; simpl; unfold int_max, cap, len; simpl; lia || reflexivity).
  assert (rtc step consumer_blocked consumer_done) as Hsteps.
  { apply (rtc_l _ _ producer_done); [apply list_elem_of_here|].
    apply (rtc_l _ _ consumer_done); [apply list_elem_of_here|].
    apply rtc_refl. }
  split; [exact Hwf|]. split; [reflexivity|]. split; [exact Hsteps|].
  exact (proj1 (proj2 blocking_Get_delivery)
           consumer_blocked consumer_done 0%nat
           [(1%nat, (OpPut 42, RUnit))] [] 42
           Hwf eq_refl Hsteps eq_refl).
Defined.

End Goroutines.

(* ================================================================== *)
(** * Further properties of the queue with a buffer *)

Section ClosedForm.

(** In a well-formed state a call does what its closed form says. *)
Lemma call_effect q o : wf q -> call o q = effect o q.
Proof.
  intros Hwf. pose proof (wf_length q Hwf) as Hrange.
  destruct o as [v|v| | | | | |]; unfold call, effect, mbind, M_bind.
  - destruct (Z.eqb_spec (length q) (capacity q)) as [Hf|Hf].
    + by rewrite TryPut_full.
    + by rewrite TryPut_room by (done || lia).
  - destruct (Z.eqb_spec (length q) (capacity q)) as [Hf|Hf].
    + by rewrite Put_full.
    + by rewrite Put_room by (done || lia).
  - destruct (Z.eqb_spec (length q) 0) as [He|He].
    + by rewrite Get_empty.
    + destruct (Get_stored q) as (x & Hx & ->); [done | lia |].
      unfold front. by rewrite Hx.
  - destruct (Z.eqb_spec (length q) 0) as [He|He].
    + by rewrite TryGet_empty by lia.
    + destruct (TryGet_stored q) as (x & Hx & ->); [done | lia |].
      unfold front. by rewrite Hx.
  - done.
  - unfold Cap, gets. by rewrite (wf_cap q Hwf).
  - done.
  - unfold String, Len, Cap, mbind, M_bind, gets. simpl.
    by rewrite (wf_cap q Hwf).
Qed.

End ClosedForm.

Section Runs.

Lemma len_app (l1 l2 : list Z) : len (l1 ++ l2) = len l1 + len l2.
Proof. unfold len. rewrite length_app. lia. Qed.

Lemma enqueued_cons x h : enqueued (x :: h) = enqueued [x] ++ enqueued h.
Proof. apply (enqueued_app [x] h). Qed.

Lemma dequeued_cons x h : dequeued (x :: h) = dequeued [x] ++ dequeued h.
Proof. apply (dequeued_app [x] h). Qed.

Lemma abstract_ending_contents e fe q' :
  abstract_ending e = Some fe -> ending_state e = Some q' ->
  ending_contents fe = contents q'.
Proof. destruct e; simpl; intros; by simplify_eq. Qed.

(** X1. From any well-formed state, whatever the position of [head] in
    the buffer: a run by one goroutine never panics, the elements stored
    at the start followed by the values inserted are the values removed
    followed by the elements stored at the end, and [length] has grown by
    the number of insertions less the number of removals. *)
Theorem run_conservation ops q :
  wf q ->
  exists q',
    ending_state (run ops q).2 = Some q' /\ wf q' /\
    contents q ++ enqueued (run ops q).1 =
      dequeued (run ops q).1 ++ contents q' /\
    length q' =
      length q + len (enqueued (run ops q).1) - len (dequeued (run ops q).1).
Proof.
  intros Hwf. destruct (wf_run ops q Hwf) as (q' & He & Hwf').
  exists q'. split_and!; [done..| |].
  - destruct (run_refines ops q Hwf) as [Hh Ha].
    pose proof (fifo_order (capacity q) ops (contents q)) as Hord.
    rewrite <- Hh in Hord. rewrite Hord. f_equal.
    by eapply abstract_ending_contents.
  - destruct (run_refines ops q Hwf) as [Hh Ha].
    pose proof (fifo_order (capacity q) ops (contents q)) as Hord.
    rewrite <- Hh in Hord.
    rewrite (abstract_ending_contents _ _ _ Ha He) in Hord. apply (f_equal len) in Hord.
    rewrite !len_app, !len_contents in Hord by done. lia.
Qed.

Lemma run_conservation_witness :
  wf (mk [7; 8; 9] 2 0 1 3) /\
  exists q',
    ending_state (run [OpPut 1; OpGet; OpPut 2; OpGet]
                    (mk [7; 8; 9] 2 0 1 3)).2 = Some q' /\
    length q' = 1.
Proof.
  assert (wf (mk [7; 8; 9] 2 0 1 3)) as H
    by (split; simpl; unfold int_max, cap, len; simpl; lia || reflexivity).
  split; [exact H|].
  destruct (run_conservation [OpPut 1; OpGet; OpPut 2; OpGet] _ H)
    as (q' & He & _ & _ & Hl).
  exists q'. split; [exact He|]. exact Hl.
Defined.

(** One call: how far [tail] and [head] move. *)
Lemma call_indices q o r q' s :
  wf q -> call o q = Done r q' s ->
  tail q' = (tail q + len (enqueued [(o, r)])) mod capacity q /\
  head q' = (head q + len (dequeued [(o, r)])) mod capacity q /\
  capacity q' = capacity q.
Proof.
  intros Hwf Hc. rewrite call_effect in Hc by done.
  pose proof (wf_head q Hwf). pose proof (wf_tail q Hwf).
  destruct o as [v|v| | | | | |]; unfold effect in Hc;
    repeat match type of Hc with
    | context [if ?b then _ else _] => destruct b
    end; simplify_eq; simpl; unfold len; simpl;
    rewrite ?Z.add_0_r; split_and!;
    try done; symmetry; apply Z.mod_small; lia.
Qed.

(** X2. The circular indices count modulo the capacity: after any run
    from a well-formed state, [tail] has advanced by the number of
    insertions and [head] by the number of removals, both modulo
    [capacity]. *)
Theorem run_indices ops : forall q,
  wf q ->
  exists q',
    ending_state (run ops q).2 = Some q' /\
    tail q' = (tail q + len (enqueued (run ops q).1)) mod capacity q /\
    head q' = (head q + len (dequeued (run ops q).1)) mod capacity q.
Proof.
  induction ops as [|o ops IH]; intros q Hwf.
  - exists q. simpl. unfold len. simpl. rewrite !Z.add_0_r.
    pose proof (wf_head q Hwf). pose proof (wf_tail q Hwf).
    by rewrite !Z.mod_small by lia.
  - simpl. pose proof (wf_safe_call q o Hwf) as Hs.
    destruct (call o q) as [r q1 s|c|p] eqn:Hc; [| |done].
    + destruct (call_indices _ _ _ _ _ Hwf Hc) as (Ht & Hh & Hcap).
      destruct (IH q1 Hs) as (q' & He & Ht' & Hh').
      destruct (run ops q1) as [h e]. cbn [fst snd] in *. exists q'.
      split; [done|]. rewrite Ht', Hh', Ht, Hh, Hcap.
      rewrite (enqueued_cons (o, r) h), (dequeued_cons (o, r) h).
      rewrite !len_app, !Zplus_mod_idemp_l. split; f_equal; lia.
    + exists q. simpl. unfold len. simpl. rewrite !Z.add_0_r.
      pose proof (wf_head q Hwf). pose proof (wf_tail q Hwf).
      by rewrite !Z.mod_small by lia.
Qed.

Lemma run_indices_witness :
  wf (mk [0; 0] 0 0 0 2) /\
  exists q',
    ending_state (run [OpPut 1; OpPut 2; OpGet; OpPut 3]
                    (mk [0; 0] 0 0 0 2)).2 = Some q' /\
    tail q' = 1 /\ head q' = 1.
Proof.
  assert (wf (mk [0; 0] 0 0 0 2)) as H
    by (split; simpl; unfold int_max, cap, len; simpl; lia || reflexivity).
  split; [exact H|].
  destruct (run_indices [OpPut 1; OpPut 2; OpGet; OpPut 3] _ H)
    as (q' & He & Ht & Hh).
  exists q'. split; [exact He|]. split; [exact Ht | exact Hh].
Defined.

Lemma insert_at_tail_no_wait value q c : insert_at_tail value q <> Waits c.
Proof.
  unfold insert_at_tail, mbind, M_bind, gets, modify, lift, Signal,
    store, go_rem.
  cbn [queue tail capacity length head set_queue set_tail set_length].
  destruct (_ && _); [|done].
  cbn [queue tail capacity length head set_queue set_tail set_length].
  by destruct (capacity q =? 0).
Qed.

Lemma remove_head_no_wait q c : remove_head q <> Waits c.
Proof.
  unfold remove_head, mbind, M_bind, gets, modify, lift, index, go_rem,
    mret, M_ret.
  cbn [queue tail capacity length head set_head set_length].
  destruct (_ && _); [|done]. destruct (_ !! _); [|done].
  cbn [queue tail capacity length head set_head set_length].
  by destruct (capacity q =? 0).
Qed.

(** X3. The blocking and the non-blocking variants do the same work, in
    every state with [length >= 0]: where [TryPut] inserts, [Put] makes
    the same insertion with the same signals, and where [TryPut] reports
    [QueueFull], [Put] parks on [putcv]; likewise [Get] against [TryGet],
    parking on [getcv]; where one panics the other panics alike. *)
Theorem blocking_as_try q value :
  0 <= length q ->
  match TryPut value q with
  | Done None q' s => Put value q = Done tt q' s
  | Done (Some e) q' s =>
      e = QueueFull /\ q' = q /\ s = [] /\ Put value q = Waits putcv
  | Waits c => False
  | Panics p => Put value q = Panics p
  end /\
  match TryGet q with
  | Done (x, None) q' s => Get q = Done x q' s
  | Done (x, Some e) q' s =>
      e = QueueEmpty /\ x = 0 /\ q' = q /\ Get q = Waits getcv
  | Waits c => False
  | Panics p => Get q = Panics p
  end.
Proof.
  intros Hlen. split.
  - unfold TryPut, Put, mbind, M_bind, gets, wait_while, mret, M_ret.
    destruct (length q =? capacity q); [done|].
    pose proof (insert_at_tail_no_wait value q) as Hw.
    destruct (insert_at_tail value q) as [a q1 s1|c|p]; [|by destruct (Hw c)|done].
    destruct a. simpl. by rewrite app_nil_r.
  - unfold TryGet, Get, mbind, M_bind, gets, wait_while, mret, M_ret,
      Signal.
    destruct (Z.ltb_spec 0 (length q)), (Z.eqb_spec (length q) 0);
      try lia; [|done].
    pose proof (remove_head_no_wait q) as Hw.
    destruct (remove_head q) as [x q1 s1|c|p]; [|by destruct (Hw c)|done].
    simpl. by rewrite !app_nil_r.
Qed.

Lemma blocking_as_try_witness :
  0 <= length (mk [4; 0] 0 1 1 2) /\
  Put 9 (mk [4; 0] 0 1 1 2) = Done tt (mk [4; 9] 0 0 2 2) [getcv] /\
  Get (mk [4; 0] 0 1 1 2) = Done 4 (mk [4; 0] 1 1 0 2) [putcv].
Proof.
  assert (0 <= length (mk [4; 0] 0 1 1 2)) as H by (simpl; lia).
  split; [exact H|].
  exact (blocking_as_try (mk [4; 0] 0 1 1 2) 9 H).
Defined.

Lemma observer_pure q o :
  is_observer o = true -> exists r, call o q = Done r q [].
Proof. destruct o; try done; intros _; by eexists. Qed.

(** X4. [Len], [Cap], [Close] and [String] only read, in any state: a
    run from which these calls are left out gets the same replies to all
    the other calls and ends in the same way. *)
Theorem observers_transparent ops : forall q,
  run (filter (fun o => is_observer o = false) ops) q =
    (filter (fun x => is_observer x.1 = false) (run ops q).1,
     (run ops q).2).
Proof.
  induction ops as [|o ops IH]; intros q; [done|].
  destruct (is_observer o) eqn:Ho.
  - rewrite filter_cons_False by (rewrite Ho; done).
    destruct (observer_pure q o Ho) as [r Hr]. simpl. rewrite Hr.
    rewrite IH. destruct (run ops q) as [h e]. cbn [fst snd].
    by rewrite filter_cons_False by (simpl; rewrite Ho; done).
  - rewrite filter_cons_True by done. simpl.
    destruct (call o q) as [r q1 s|c|p]; [|done..].
    rewrite IH. destruct (run ops q1) as [h e]. cbn [fst snd].
    by rewrite filter_cons_True by done.
Qed.

(** X5. The signals of a call, in every state that a queue can reach: an
    insertion signals [getcv] once; [Get] and [TryGet] signal [putcv]
    once, [TryGet] also when it reports [QueueEmpty]; a [TryPut] that
    reports [QueueFull] and the reading calls signal nothing. *)
Theorem call_signals q o r q' s :
  safe q -> call o q = Done r q' s -> s = expected_signals o r.
Proof.
  intros [Hwf| ->] Hc.
  - rewrite call_effect in Hc by done.
    destruct o; unfold effect in Hc;
      repeat match type of Hc with
      | context [if ?b then _ else _] => destruct b
      end; by simplify_eq.
  - destruct o; vm_compute in Hc; by simplify_eq.
Qed.

Lemma call_signals_witness :
  safe (mk [0] 0 0 0 1) /\
  call OpTryGet (mk [0] 0 0 0 1) =
    Done (RIntErr 0 (Some QueueEmpty)) (mk [0] 0 0 0 1) [putcv] /\
  [putcv] = expected_signals OpTryGet (RIntErr 0 (Some QueueEmpty)).
Proof.
  assert (safe (mk [0] 0 0 0 1)) as H.
  { left. split; simpl; unfold int_max, cap, len; simpl;
      lia || reflexivity. }
  split; [exact H|]. split; [reflexivity|].
  exact (call_signals _ OpTryGet _ _ _ H eq_refl).
Defined.

(** A run of the model that ends idle is a run of the queue that ends
    idle, with the list of the model in the buffer. *)
Lemma run_via_model ops q h l :
  wf q -> Fifo.run (capacity q) ops (contents q) = (h, Fifo.Idle l) ->
  exists q', run ops q = (h, Idle q') /\ wf q' /\ contents q' = l.
Proof.
  intros Hwf Hf. destruct (run_refines ops q Hwf) as [Hh Ha].
  destruct (wf_run ops q Hwf) as (q' & He & Hwf').
  rewrite Hf in Hh, Ha. destruct (run ops q) as [h' e]. simpl in *.
  subst h'. destruct e as [q1|o c q1|o p]; simpl in *; simplify_eq.
  by exists q'.
Qed.

Lemma fifo_run_app n ops1 ops2 : forall l h1 l1,
  Fifo.run n ops1 l = (h1, Fifo.Idle l1) ->
  Fifo.run n (ops1 ++ ops2) l =
    (h1 ++ (Fifo.run n ops2 l1).1, (Fifo.run n ops2 l1).2).
Proof.
  induction ops1 as [|o ops1 IH]; intros l h1 l1 H; simpl in *.
  { simplify_eq. simpl. by destruct (Fifo.run n ops2 l1). }
  destruct (Fifo.call n o l) as [r l'|]; [|done].
  destruct (Fifo.run n ops1 l') as [h e] eqn:Hr. simplify_eq.
  by rewrite (IH l' h l1 Hr).
Qed.

Lemma fifo_run_puts n vs : forall l,
  len l + len vs <= n ->
  Fifo.run n (OpPut <$> vs) l =
    ((fun v => (OpPut v, RUnit)) <$> vs, Fifo.Idle (l ++ vs)).
Proof.
  induction vs as [|v vs IH]; intros l Hn; simpl.
  { by rewrite app_nil_r. }
  assert (len (v :: vs) = 1 + len vs) as Hv by (unfold len; simpl; lia).
  pose proof (Nat2Z.is_nonneg (Datatypes.length vs)). unfold len in *.
  destruct (Z.eqb_spec (Z.of_nat (Datatypes.length l)) n); [lia|].
  rewrite IH by (rewrite length_app; simpl; lia).
  by rewrite <- app_assoc.
Qed.

Lemma fifo_run_gets n vs : forall l,
  Fifo.run n (replicate (Datatypes.length vs) OpGet) (vs ++ l) =
    ((fun v => (OpGet, RInt v)) <$> vs, Fifo.Idle l).
Proof.
  induction vs as [|v vs IH]; intros l; simpl; [done|].
  by rewrite IH.
Qed.

Lemma fifo_run_try_puts n vs : forall l,
  len l <= n ->
  Fifo.run n (OpTryPut <$> vs) l =
    (((fun v => (OpTryPut v, RErr None)) <$>
        take (Z.to_nat (n - len l)) vs) ++
     ((fun v => (OpTryPut v, RErr (Some QueueFull))) <$>
        drop (Z.to_nat (n - len l)) vs),
     Fifo.Idle (l ++ take (Z.to_nat (n - len l)) vs)).
Proof.
  induction vs as [|v vs IH]; intros l Hn.
  { rewrite take_nil, drop_nil. simpl. by rewrite app_nil_r. }
  cbn [fmap list_fmap Fifo.run Fifo.call].
  destruct (Z.eqb_spec (len l) n) as [He|He].
  - rewrite IH by done. rewrite He, Z.sub_diag. simpl.
    by rewrite !take_0, !drop_0.
  - assert (len (l ++ [v]) = len l + 1) as Hl
      by (unfold len; rewrite length_app; simpl; lia).
    rewrite IH by lia. rewrite Hl.
    replace (Z.to_nat (n - len l)) with (S (Z.to_nat (n - (len l + 1))))
      by lia.
    simpl. by rewrite <- app_assoc.
Qed.

(** X6. Round trip through the buffer.  From a well-formed state with
    room for the values [vs], the calls [Put] of each of them followed by
    as many [Get] as there are elements then return, in order, the
    elements that were stored and then [vs]; no call blocks and the queue
    ends empty. *)
Theorem fill_and_drain q vs :
  wf q -> length q + len vs <= capacity q ->
  exists q',
    run ((OpPut <$> vs) ++
         replicate (Datatypes.length (contents q ++ vs)) OpGet) q =
      (((fun v => (OpPut v, RUnit)) <$> vs) ++
       ((fun v => (OpGet, RInt v)) <$> (contents q ++ vs)), Idle q') /\
    wf q' /\ length q' = 0.
Proof.
  intros Hwf Hroom.
  destruct (run_via_model
    ((OpPut <$> vs) ++ replicate (Datatypes.length (contents q ++ vs)) OpGet)
    q (((fun v => (OpPut v, RUnit)) <$> vs) ++
       ((fun v => (OpGet, RInt v)) <$> (contents q ++ vs))) [] Hwf)
    as (q' & Hr & Hwf' & Hc).
  { assert (len (contents q) + len vs <= capacity q) as Hroom'
      by (rewrite len_contents by done; lia).
    rewrite (fifo_run_app _ _ _ _ _ (contents q ++ vs)
               (fifo_run_puts (capacity q) vs (contents q) Hroom')).
    pose proof (fifo_run_gets (capacity q) (contents q ++ vs) []) as Hg.
    rewrite app_nil_r in Hg. by rewrite Hg. }
  exists q'. split_and!; [done..|].
  by rewrite <- (len_contents q' Hwf'), Hc.
Qed.

Lemma fill_and_drain_witness :
  wf (mk [7; 8; 9] 2 0 1 3) /\
  length (mk [7; 8; 9] 2 0 1 3) + len [1; 2] <= capacity (mk [7; 8; 9] 2 0 1 3)
  /\ exists q',
    run [OpPut 1; OpPut 2; OpGet; OpGet; OpGet] (mk [7; 8; 9] 2 0 1 3) =
      ([(OpPut 1, RUnit); (OpPut 2, RUnit); (OpGet, RInt 9);
        (OpGet, RInt 1); (OpGet, RInt 2)], Idle q').
Proof.
  assert (wf (mk [7; 8; 9] 2 0 1 3)) as H
    by (split; simpl; unfold int_max, cap, len; simpl; lia || reflexivity).
  assert (length (mk [7; 8; 9] 2 0 1 3) + len [1; 2]
          <= capacity (mk [7; 8; 9] 2 0 1 3)) as H'
    by (unfold len; simpl; lia).
  split; [exact H|]. split; [exact H'|].
  destruct (fill_and_drain _ [1; 2] H H') as (q' & Hr & _).
  exists q'. exact Hr.
Defined.

(** X7. The bound is exact.  From a well-formed state with [k] free
    slots, a sequence of [TryPut] calls inserts its first [k] values and
    reports [QueueFull] for every later one; the buffer then holds the
    old elements followed by those [k] values. *)
Theorem TryPut_until_full q vs :
  wf q ->
  exists q',
    run (OpTryPut <$> vs) q =
      (((fun v => (OpTryPut v, RErr None)) <$>
          take (Z.to_nat (capacity q - length q)) vs) ++
       ((fun v => (OpTryPut v, RErr (Some QueueFull))) <$>
          drop (Z.to_nat (capacity q - length q)) vs), Idle q') /\
    contents q' =
      contents q ++ take (Z.to_nat (capacity q - length q)) vs.
Proof.
  intros Hwf. pose proof (wf_length q Hwf) as Hl.
  pose proof (fifo_run_try_puts (capacity q) vs (contents q)) as Hf.
  rewrite len_contents in Hf by done.
  destruct (run_via_model _ q _ _ Hwf (Hf ltac:(lia)))
    as (q' & Hr & _ & Hc).
  by exists q'.
Qed.

Lemma TryPut_until_full_witness :
  wf (mk [0; 0] 1 1 0 2) /\
  exists q',
    run [OpTryPut 5; OpTryPut 6; OpTryPut 7] (mk [0; 0] 1 1 0 2) =
      ([(OpTryPut 5, RErr None); (OpTryPut 6, RErr None);
        (OpTryPut 7, RErr (Some QueueFull))], Idle q') /\
    contents q' = [5; 6].
Proof.
  assert (wf (mk [0; 0] 1 1 0 2)) as H
    by (split; simpl; unfold int_max, cap, len; simpl; lia || reflexivity).
  split; [exact H|].
  exact (TryPut_until_full _ [5; 6; 7] H).
Defined.

End Runs.

(* ================================================================== *)
(** * Further properties of goroutines sharing the queue *)

Import Protocol.

Section Interleavings.

Lemma count_nonneg P gs : 0 <= count P gs.
Proof. induction gs as [|g gs IH]; simpl; [lia|]. destruct (P g); simpl; lia. Qed.

Lemma count_insert P (gs : list goroutine) : forall (i : nat) g0 g,
  gs !! i = Some g0 ->
  count P (<[i := g]> gs) = count P gs - b2z (P g0) + b2z (P g).
Proof.
  induction gs as [|g1 gs IH]; intros [|i] g0 g H; simpl in *;
    simplify_eq; [lia|].
  rewrite (IH i g0 g H). lia.
Qed.

Lemma count_lookup P (gs : list goroutine) (i : nat) g :
  gs !! i = Some g -> P g = true -> 0 < count P gs.
Proof.
  revert i. induction gs as [|g1 gs IH]; intros [|i] H Hp; simpl in *;
    simplify_eq.
  - rewrite Hp. pose proof (count_nonneg P gs). simpl. lia.
  - specialize (IH i H Hp). destruct (P g1); simpl; lia.
Qed.

Lemma count_pos P (gs : list goroutine) :
  0 < count P gs -> exists (i : nat) g, gs !! i = Some g /\ P g = true.
Proof.
  induction gs as [|g1 gs IH]; simpl; [lia|]. intros H.
  destruct (P g1) eqn:Hp.
  - by exists 0%nat, g1.
  - simpl in H. destruct (IH ltac:(lia)) as (i & g & Hi & Hg).
    by exists (S i), g.
Qed.

Lemma count_zero P (gs : list goroutine) :
  (forall (i : nat) g, gs !! i = Some g -> P g = false) -> count P gs = 0.
Proof.
  induction gs as [|g1 gs IH]; intros H; simpl; [done|].
  rewrite (H 0%nat g1 eq_refl), IH; [done|].
  intros i g Hi. apply (H (S i) g Hi).
Qed.

Lemma alter_woken (gs : list goroutine) : forall (j : nat) c o rest,
  gs !! j = Some (Waiting c o rest) ->
  alter woken j gs = <[j := Calling o rest]> gs.
Proof.
  induction gs as [|g gs IH]; intros [|j] c o rest H; simpl in *;
    simplify_eq; [done|].
  f_equal. by eapply IH.
Qed.

Lemma waiters_spec c (gs : list goroutine) : forall (k j : nat),
  j ∈ waiters c k gs ->
  exists o rest, (k <= j)%nat /\ gs !! (j - k)%nat = Some (Waiting c o rest).
Proof.
  induction gs as [|g gs IH]; intros k j H; simpl in H.
  { by apply elem_of_nil in H. }
  apply elem_of_app in H as [H|H].
  - destruct g as [|c' o rest| |]; simpl in H;
      try (by apply elem_of_nil in H).
    destruct (bool_decide_reflect (c = c')) as [->|];
      [|by apply elem_of_nil in H].
    apply list_elem_of_singleton in H as ->.
    exists o, rest. split; [lia|]. by rewrite Nat.sub_diag.
  - destruct (IH _ _ H) as (o & rest & Hk & Hl).
    exists o, rest. split; [lia|].
    replace (j - k)%nat with (S (j - S k)) by lia. done.
Qed.

Lemma waiters_nil c gs : forall k,
  waiters c k gs = [] -> count (parked_on c) gs = 0.
Proof.
  induction gs as [|g gs IH]; intros k H; simpl in *; [done|].
  apply app_eq_nil in H as [H1 H2]. rewrite (IH _ H2).
  by destruct (parked_on c g).
Qed.

(** [Signal] leaves the goroutines as they are when none is parked on
    the condition variable, and otherwise makes one of those ready. *)
Lemma signal_options_spec c (gs gs1 : list goroutine) :
  gs1 ∈ signal_options c gs ->
  (count (parked_on c) gs = 0 /\ gs1 = gs) \/
  (exists (j : nat) o rest,
     gs !! j = Some (Waiting c o rest) /\
     gs1 = <[j := Calling o rest]> gs).
Proof.
  unfold signal_options. intros H.
  destruct (waiters c 0%nat gs) as [|j0 js] eqn:Hw.
  - apply list_elem_of_singleton in H as ->. left.
    split; [by eapply waiters_nil|done].
  - apply list_elem_of_fmap in H as (j & -> & Hj). right.
    rewrite <- Hw in Hj. apply waiters_spec in Hj as (o & rest & _ & Hl).
    rewrite Nat.sub_0_r in Hl. exists j, o, rest.
    split; [done|]. by eapply alter_woken.
Qed.

Lemma deliver_options_spec cs gs gs1 :
  gs1 ∈ deliver_options cs gs ->
  match cs with
  | [] => gs1 = gs
  | [c] => gs1 ∈ signal_options c gs
  | _ => True
  end.
Proof.
  destruct cs as [|c [|c' cs]]; simpl; intros H; [| |done].
  - by apply list_elem_of_singleton in H.
  - apply list_elem_of_bind in H as (gs2 & H & H2).
    by apply list_elem_of_singleton in H as ->.
Qed.

(** One step from a well-formed state: a goroutine that is about to call
    runs the closed form of its call. *)
Lemma step_inv sys sys' :
  step sys sys' -> wf (shared sys) ->
  exists i o rest,
    goroutines sys !! i = Some (Calling o rest) /\
    match effect o (shared sys) with
    | Done r q' sg =>
        exists gs',
          gs' ∈ deliver_options sg
                  (<[i := continue rest]> (goroutines sys)) /\
          sys' = mk_system q' gs' (history sys ++ [(i, (o, r))])
    | Waits c =>
        sys' = mk_system (shared sys)
                 (<[i := Waiting c o rest]> (goroutines sys)) (history sys)
    | Panics p => False
    end.
Proof.
  unfold step, successors. intros Hs Hwf.
  apply list_elem_of_bind in Hs as (i & Hs & _). unfold fire in Hs.
  destruct (goroutines sys !! i) as [[o rest| | |]|] eqn:Hi;
    try by apply elem_of_nil in Hs.
  exists i, o, rest. split; [done|].
  pose proof (wf_safe_call _ o Hwf) as Hsafe.
  rewrite <- call_effect by done.
  destruct (call o (shared sys)) as [r q' sg|c|p]; [| |done].
  - apply list_elem_of_fmap in Hs as (gs' & -> & Hgs). by exists gs'.
  - by apply list_elem_of_singleton in Hs.
Qed.

Lemma b2z_range b : 0 <= b2z b <= 1.
Proof. destruct b; simpl; lia. Qed.

(** A goroutine whose call returned goes on with its next call. *)
Lemma continue_counts (gs : list goroutine) (i : nat) o rest :
  gs !! i = Some (Calling o rest) ->
  Forall (fun g => well_parked g = true) gs ->
  Forall (fun g => well_parked g = true) (<[i := continue rest]> gs) /\
  count (parked_on getcv) (<[i := continue rest]> gs)
    = count (parked_on getcv) gs /\
  count (parked_on putcv) (<[i := continue rest]> gs)
    = count (parked_on putcv) gs /\
  count calling_get gs - b2z (calling_get (Calling o rest))
    <= count calling_get (<[i := continue rest]> gs) /\
  count calling_put gs - b2z (calling_put (Calling o rest))
    <= count calling_put (<[i := continue rest]> gs).
Proof.
  intros Hi Hwp.
  rewrite !(count_insert _ gs i (Calling o rest)) by done.
  pose proof (b2z_range (calling_get (continue rest))).
  pose proof (b2z_range (calling_put (continue rest))).
  split_and!; try lia.
  - apply Forall_insert; [done|]. by destruct rest.
  - destruct rest; simpl; lia.
  - destruct rest; simpl; lia.
Qed.

(** A goroutine parks: a [Get] on [getcv], a [Put] on [putcv]. *)
Lemma park_counts (gs : list goroutine) (i : nat) c o rest :
  gs !! i = Some (Calling o rest) ->
  well_parked (Waiting c o rest) = true ->
  Forall (fun g => well_parked g = true) gs ->
  Forall (fun g => well_parked g = true) (<[i := Waiting c o rest]> gs) /\
  count (parked_on getcv) (<[i := Waiting c o rest]> gs)
    = count (parked_on getcv) gs + b2z (bool_decide (c = getcv)) /\
  count (parked_on putcv) (<[i := Waiting c o rest]> gs)
    = count (parked_on putcv) gs + b2z (bool_decide (c = putcv)) /\
  count calling_get (<[i := Waiting c o rest]> gs)
    = count calling_get gs - b2z (calling_get (Calling o rest)) /\
  count calling_put (<[i := Waiting c o rest]> gs)
    = count calling_put gs - b2z (calling_put (Calling o rest)).
Proof.
  intros Hi Hw Hwp.
  rewrite !(count_insert _ gs i (Calling o rest)) by done.
  split_and!; [by apply Forall_insert|..];
    destruct c; simpl; lia.
Qed.

(** A signal on [putcv] readies a parked [Put], if there is one. *)
Lemma signal_putcv_counts (gs gs1 : list goroutine) :
  Forall (fun g => well_parked g = true) gs ->
  gs1 ∈ signal_options putcv gs ->
  Forall (fun g => well_parked g = true) gs1 /\
  count (parked_on getcv) gs1 = count (parked_on getcv) gs /\
  count calling_get gs1 = count calling_get gs /\
  ((count (parked_on putcv) gs = 0 /\ gs1 = gs) \/
   (0 < count (parked_on putcv) gs /\
    count (parked_on putcv) gs1 = count (parked_on putcv) gs - 1 /\
    count calling_put gs1 = count calling_put gs + 1)).
Proof.
  intros Hwp [[H0 ->]|(j & o & rest & Hj & ->)]%signal_options_spec.
  { split_and!; try done. by left. }
  pose proof (Forall_lookup_1 _ _ _ _ Hwp Hj) as Hw. simpl in Hw.
  destruct o; try done.
  rewrite !(count_insert _ gs j _ _ Hj). simpl.
  split_and!; try lia.
  - by apply Forall_insert.
  - right. split_and!; try lia.
    by eapply (count_lookup (parked_on putcv)).
Qed.

(** A signal on [getcv] readies a parked [Get], if there is one. *)
Lemma signal_getcv_counts (gs gs1 : list goroutine) :
  Forall (fun g => well_parked g = true) gs ->
  gs1 ∈ signal_options getcv gs ->
  Forall (fun g => well_parked g = true) gs1 /\
  count (parked_on putcv) gs1 = count (parked_on putcv) gs /\
  count calling_put gs1 = count calling_put gs /\
  ((count (parked_on getcv) gs = 0 /\ gs1 = gs) \/
   (0 < count (parked_on getcv) gs /\
    count (parked_on getcv) gs1 = count (parked_on getcv) gs - 1 /\
    count calling_get gs1 = count calling_get gs + 1)).
Proof.
  intros Hwp [[H0 ->]|(j & o & rest & Hj & ->)]%signal_options_spec.
  { split_and!; try done. by left. }
  pose proof (Forall_lookup_1 _ _ _ _ Hwp Hj) as Hw. simpl in Hw.
  destruct o; try done.
  rewrite !(count_insert _ gs j _ _ Hj). simpl.
  split_and!; try lia.
  - by apply Forall_insert.
  - right. split_and!; try lia.
    by eapply (count_lookup (parked_on getcv)).
Qed.

Ltac protocol_arith :=
  unfold no_lost_wakeup;
  cbn [length capacity inserted removed shared goroutines b2z
       calling_get calling_put] in *;
  split_and!; [done | intros; lia..].

(** One step keeps the wake-up invariant. *)
Lemma step_no_lost_wakeup sys sys' :
  step sys sys' -> wf (shared sys) ->
  no_lost_wakeup sys -> no_lost_wakeup sys'.
Proof.
  intros Hs Hwf (Hwp & Hg & Hp).
  destruct (step_inv _ _ Hs Hwf) as (i & o & rest & Hi & He).
  pose proof (wf_length _ Hwf) as Hl.
  destruct (continue_counts _ _ _ _ Hi Hwp) as (Hwp0 & Wg0 & Wp0 & G0 & U0).
  pose proof (count_nonneg (parked_on getcv) (goroutines sys)).
  pose proof (count_nonneg (parked_on putcv) (goroutines sys)).
  destruct o as [v|v| | | | | |]; unfold effect in He.
  - (* TryPut *)
    destruct (Z.eqb_spec (length (shared sys)) (capacity (shared sys))).
    + destruct He as (gs' & Hd & ->).
      apply deliver_options_spec in Hd as ->. protocol_arith.
    + destruct He as (gs' & Hd & ->). apply deliver_options_spec in Hd.
      destruct (signal_getcv_counts _ _ Hwp0 Hd)
        as (Hwp1 & Wp1 & U1 & [[W0 ->]|(Wpos & W1 & G1)]);
        protocol_arith.
  - (* Put *)
    destruct (Z.eqb_spec (length (shared sys)) (capacity (shared sys))).
    + subst sys'.
      destruct (park_counts _ _ putcv _ _ Hi eq_refl Hwp)
        as (Hwp1 & Wg1 & Wp1 & G1 & U1).
      simpl in Wg1, Wp1, G1, U1.
      pose proof (count_nonneg calling_put
                    (<[i := Waiting putcv (OpPut v) rest]> (goroutines sys))).
      protocol_arith.
    + destruct He as (gs' & Hd & ->). apply deliver_options_spec in Hd.
      destruct (signal_getcv_counts _ _ Hwp0 Hd)
        as (Hwp1 & Wp1 & U1 & [[W0 ->]|(Wpos & W1 & G1)]);
        protocol_arith.
  - (* Get *)
    destruct (Z.eqb_spec (length (shared sys)) 0).
    + subst sys'.
      destruct (park_counts _ _ getcv _ _ Hi eq_refl Hwp)
        as (Hwp1 & Wg1 & Wp1 & G1 & U1).
      simpl in Wg1, Wp1, G1, U1.
      pose proof (count_nonneg calling_get
                    (<[i := Waiting getcv OpGet rest]> (goroutines sys))).
      protocol_arith.
    + destruct He as (gs' & Hd & ->). apply deliver_options_spec in Hd.
      destruct (signal_putcv_counts _ _ Hwp0 Hd)
        as (Hwp1 & Wg1 & G1 & [[W0 ->]|(Wpos & W1 & U1)]);
        protocol_arith.
  - (* TryGet *)
    destruct (Z.eqb_spec (length (shared sys)) 0).
    + destruct He as (gs' & Hd & ->). apply deliver_options_spec in Hd.
      destruct (signal_putcv_counts _ _ Hwp0 Hd)
        as (Hwp1 & Wg1 & G1 & [[W0 ->]|(Wpos & W1 & U1)]);
        protocol_arith.
    + destruct He as (gs' & Hd & ->). apply deliver_options_spec in Hd.
      destruct (signal_putcv_counts _ _ Hwp0 Hd)
        as (Hwp1 & Wg1 & G1 & [[W0 ->]|(Wpos & W1 & U1)]);
        protocol_arith.
  - destruct He as (gs' & Hd & ->).
    apply deliver_options_spec in Hd as ->. protocol_arith.
  - destruct He as (gs' & Hd & ->).
    apply deliver_options_spec in Hd as ->. protocol_arith.
  - destruct He as (gs' & Hd & ->).
    apply deliver_options_spec in Hd as ->. protocol_arith.
  - destruct He as (gs' & Hd & ->).
    apply deliver_options_spec in Hd as ->. protocol_arith.
Qed.

Lemma unparked_no_lost_wakeup sys :
  Forall (fun g => unparked g = true) (goroutines sys) ->
  no_lost_wakeup sys.
Proof.
  intros Hu. unfold no_lost_wakeup.
  assert (forall c, count (parked_on c) (goroutines sys) = 0) as Hz.
  { intros c. apply count_zero. intros i g Hi.
    pose proof (Forall_lookup_1 _ _ _ _ Hu Hi) as Hg.
    simpl in Hg. by destruct g. }
  rewrite !Hz. split_and!; [|lia..].
  eapply Forall_impl; [exact Hu|]. intros g Hg. by destruct g.
Qed.

Lemma wakeups_not_lost_lemma sys sys' :
  wf (shared sys) ->
  Forall (fun g => unparked g = true) (goroutines sys) ->
  rtc step sys sys' ->
  wf (shared sys') /\ no_lost_wakeup sys'.
Proof.
  intros Hwf Hu Hsteps. revert sys' Hsteps. apply rtc_ind_r.
  - split; [done|]. by apply unparked_no_lost_wakeup.
  - intros sys1 sys2 _ Hs [Hwf1 Hinv].
    split; [by destruct (step_history _ _ Hs Hwf1)|].
    by eapply step_no_lost_wakeup.
Qed.

(** X8. No wake-up is lost, in any interleaving.  Started with a
    well-formed queue and goroutines none of which is parked, the system
    only reaches states in which, while some [Get] is parked on [getcv],
    at least as many [Get] calls are about to take the mutex as elements
    are stored, and while some [Put] is parked on [putcv], at least as
    many [Put] calls are about to take it as slots are free. *)
Theorem wakeups_not_lost sys sys' :
  wf (shared sys) ->
  Forall (fun g => unparked g = true) (goroutines sys) ->
  rtc step sys sys' ->
  no_lost_wakeup sys' /\
  (forall (i : nat) o rest,
     goroutines sys' !! i = Some (Waiting getcv o rest) ->
     0 < length (shared sys') ->
     exists (j : nat) rest', goroutines sys' !! j = Some (Calling OpGet rest'))
  /\
  (forall (i : nat) o rest,
     goroutines sys' !! i = Some (Waiting putcv o rest) ->
     length (shared sys') < capacity (shared sys') ->
     exists (j : nat) v rest',
       goroutines sys' !! j = Some (Calling (OpPut v) rest')).
Proof.
  intros Hwf Hu Hsteps.
  destruct (wakeups_not_lost_lemma sys sys' Hwf Hu Hsteps)
    as (Hwf' & Hwp & Hg & Hp).
  split; [done|]. split.
  - intros i o rest Hi Hpos.
    assert (0 < count calling_get (goroutines sys')) as Hc.
    { assert (0 < count (parked_on getcv) (goroutines sys'))
        by (by eapply count_lookup).
      specialize (Hg ltac:(done)). lia. }
    apply count_pos in Hc as (j & g & Hj & Hcg).
    destruct g as [[] rest'| | |]; try done. by exists j, rest'.
  - intros i o rest Hi Hroom.
    assert (0 < count calling_put (goroutines sys')) as Hc.
    { assert (0 < count (parked_on putcv) (goroutines sys'))
        by (by eapply count_lookup).
      specialize (Hp ltac:(done)). lia. }
    apply count_pos in Hc as (j & g & Hj & Hcg).
    destruct g as [[] rest'| | |]; try done. by eexists j, _, rest'.
Qed.

Lemma wakeups_not_lost_witness :
  wf (shared scenario) /\
  Forall (fun g => unparked g = true) (goroutines scenario) /\
  rtc step scenario consumer_blocked /\
  no_lost_wakeup consumer_blocked.
Proof.
  assert (wf (shared scenario)) as Hwf
    by (split; simpl; unfold int_max, cap, len; simpl; lia || reflexivity).
  assert (Forall (fun g => unparked g = true) (goroutines scenario)) as Hu
    by (repeat constructor).
  assert (rtc step scenario consumer_blocked) as Hsteps.
  { apply (rtc_l _ _ consumer_blocked); [apply list_elem_of_here|].
    apply rtc_refl. }
  split; [exact Hwf|]. split; [exact Hu|]. split; [exact Hsteps|].
  exact (proj1 (wakeups_not_lost _ _ Hwf Hu Hsteps)).
Defined.






Lemma signal_options_Forall (P : goroutine -> Prop) c gs gs1 :
  (forall o rest, P (Calling o rest)) ->
  Forall P gs -> gs1 ∈ signal_options c gs -> Forall P gs1.
Proof.
  intros HP Hgs [[_ ->]|(j & o & rest & Hj & ->)]%signal_options_spec;
    [done|].
  by apply Forall_insert.
Qed.

Lemma deliver_options_Forall (P : goroutine -> Prop) cs :
  (forall o rest, P (Calling o rest)) ->
  forall gs gs1, Forall P gs -> gs1 ∈ deliver_options cs gs -> Forall P gs1.
Proof.
  intros HP. induction cs as [|c cs IH]; intros gs gs1 Hgs H; simpl in H.
  - by apply list_elem_of_singleton in H as ->.
  - apply list_elem_of_bind in H as (gs2 & H2 & H1).
    eapply IH; [|exact H2]. by eapply signal_options_Forall.
Qed.

Lemma step_no_panic sys sys' :
  step sys sys' -> wf (shared sys) ->
  Forall (fun g => panicked g = false) (goroutines sys) ->
  Forall (fun g => panicked g = false) (goroutines sys').
Proof.
  intros Hs Hwf Hnp.
  destruct (step_inv _ _ Hs Hwf) as (i & o & rest & Hi & He).
  destruct (effect o (shared sys)) as [r q' sg|c|p]; [| |done].
  - destruct He as (gs' & Hd & ->). simpl.
    eapply (deliver_options_Forall _ sg); [done| |exact Hd].
    apply Forall_insert; [done|]. by destruct rest.
  - subst sys'. simpl. by apply Forall_insert.
Qed.

(** X10. No interleaving breaks the queue.  Started with a well-formed
    queue, whatever the goroutines call and however their calls
    interleave, no call ever panics (no index out of range, no remainder
    by zero), and the invariant of the buffer holds at every moment; in
    particular [0 <= length <= capacity]. *)
Theorem interleaving_safe sys sys' :
  wf (shared sys) ->
  Forall (fun g => panicked g = false) (goroutines sys) ->
  rtc step sys sys' ->
  wf (shared sys') /\
  Forall (fun g => panicked g = false) (goroutines sys') /\
  0 <= length (shared sys') <= capacity (shared sys').
Proof.
  intros Hwf Hnp Hsteps.
  assert (wf (shared sys') /\
          Forall (fun g => panicked g = false) (goroutines sys')) as [H1 H2].
  { revert sys' Hsteps. apply rtc_ind_r; [done|].
    intros sys1 sys2 _ Hs [Hwf1 Hnp1]. split.
    - by destruct (step_history _ _ Hs Hwf1).
    - by eapply step_no_panic. }
  split_and!; [done..| |]; by destruct (wf_length _ H1).
Qed.

Lemma interleaving_safe_witness :
  wf (shared consumer_blocked) /\
  Forall (fun g => panicked g = false) (goroutines consumer_blocked) /\
  rtc step consumer_blocked consumer_done /\
  wf (shared consumer_done).
Proof.
  assert (wf (shared consumer_blocked)) as Hwf
    by (split; simpl; unfold int_max, cap, len; simpl; lia || reflexivity).
  assert (Forall (fun g => panicked g = false)
            (goroutines consumer_blocked)) as Hnp by (repeat constructor).
  assert (rtc step consumer_blocked consumer_done) as Hsteps.
  { apply (rtc_l _ _ producer_done); [apply list_elem_of_here|].
    apply (rtc_l _ _ consumer_done); [apply list_elem_of_here|].
    apply rtc_refl. }
  split; [exact Hwf|]. split; [exact Hnp|]. split; [exact Hsteps|].
  exact (proj1 (interleaving_safe _ _ Hwf Hnp Hsteps)).
Defined.

(** X11. Nothing is lost or delivered twice, in any interleaving.  Over
    any execution from a well-formed queue, with the calls taken in the
    order in which they left their critical sections: the elements stored
    at the start followed by the values inserted are exactly the values
    removed followed by the elements stored at the end, and [length] has
    grown by the number of insertions less the number of removals. *)
Theorem interleaving_conservation sys sys' :
  wf (shared sys) -> rtc step sys sys' ->
  exists ext,
    history sys' = history sys ++ ext /\
    contents (shared sys) ++ enqueued ext.*2 =
      dequeued ext.*2 ++ contents (shared sys') /\
    length (shared sys') =
      length (shared sys) + len (enqueued ext.*2) - len (dequeued ext.*2).
Proof.
  intros Hwf Hsteps.
  destruct (steps_history _ _ Hsteps Hwf) as (Hwf' & ext & Hext & Hp).
  exists ext. destruct (Hp ext) as (st & Heq & Hst); [done|].
  rewrite (Hst eq_refl) in Heq. split_and!; [done..|].
  apply (f_equal len) in Heq.
  rewrite !len_app, !len_contents in Heq by done. lia.
Qed.

Lemma interleaving_conservation_witness :
  wf (shared consumer_blocked) /\
  rtc step consumer_blocked consumer_done /\
  exists ext, history consumer_done = history consumer_blocked ++ ext /\
    length (shared consumer_done) =
      length (shared consumer_blocked)
      + len (enqueued ext.*2) - len (dequeued ext.*2).
Proof.
  assert (wf (shared consumer_blocked)) as Hwf
    by (split; simpl; unfold int_max, cap, len; simpl; lia || reflexivity).
  assert (rtc step consumer_blocked consumer_done) as Hsteps.
  { apply (rtc_l _ _ producer_done); [apply list_elem_of_here|].
    apply (rtc_l _ _ consumer_done); [apply list_elem_of_here|].
    apply rtc_refl. }
  split; [exact Hwf|]. split; [exact Hsteps|].
  destruct (interleaving_conservation _ _ Hwf Hsteps)
    as (ext & H1 & _ & H3).
  exists ext. split; [exact H1 | exact H3].
Defined.

(** One step, whatever the state of the queue. *)
Lemma step_inv_call sys sys' :
  step sys sys' ->
  exists (i : nat) o rest,
    goroutines sys !! i = Some (Calling o rest) /\
    match call o (shared sys) with
    | Done r q' sg =>
        exists gs',
          gs' ∈ deliver_options sg
                  (<[i := continue rest]> (goroutines sys)) /\
          sys' = mk_system q' gs' (history sys ++ [(i, (o, r))])
    | Waits c =>
        sys' = mk_system (shared sys)
                 (<[i := Waiting c o rest]> (goroutines sys)) (history sys)
    | Panics p =>
        sys' = mk_system (shared sys)
                 (<[i := Panicked o p]> (goroutines sys)) (history sys)
    end.
Proof.
  unfold step, successors. intros Hs.
  apply list_elem_of_bind in Hs as (i & Hs & _). unfold fire in Hs.
  destruct (goroutines sys !! i) as [[o rest| | |]|] eqn:Hi;
    try by apply elem_of_nil in Hs.
  exists i, o, rest. split; [done|].
  destruct (call o (shared sys)) as [r q' sg|c|p].
  - apply list_elem_of_fmap in Hs as (gs' & -> & Hgs). by exists gs'.
  - by apply list_elem_of_singleton in Hs.
  - by apply list_elem_of_singleton in Hs.
Qed.

Lemma call_zero_done o r q' s :
  call o zero_queue = Done r q' s ->
  q' = zero_queue /\ o <> OpGet /\ (forall v, o <> OpPut v) /\
  (is_try o = true -> r = try_failure o).
Proof.
  pose proof (call_zero_queue o) as Hz. intros Hc. rewrite Hc in Hz.
  destruct Hz as [-> Hr]. split_and!; [done| | |done].
  - intros ->. by vm_compute in Hc.
  - intros v ->. by vm_compute in Hc.
Qed.

(** X12. Capacity zero under concurrency.  On the queue that
    [NewNativeQueue(0)] returns, in any interleaving, no [Put] and no
    [Get] ever returns, every [TryPut] and [TryGet] that returns reports
    its error, and the state of the queue never changes. *)
Theorem zero_capacity_blocks sys sys' :
  shared sys = zero_queue -> rtc step sys sys' ->
  shared sys' = zero_queue /\
  exists ext,
    history sys' = history sys ++ ext /\
    Forall (fun e => e.2.1 <> OpGet /\ (forall v, e.2.1 <> OpPut v) /\
                     (is_try e.2.1 = true -> e.2.2 = try_failure e.2.1))
           ext.
Proof.
  intros Hz Hsteps. revert sys' Hsteps. apply rtc_ind_r.
  - split; [done|]. exists []. by rewrite app_nil_r.
  - intros sys1 sys2 _ Hs (Hz1 & ext & Hext & Hall).
    destruct (step_inv_call _ _ Hs) as (i & o & rest & Hi & Hc).
    rewrite Hz1 in Hc.
    destruct (call o zero_queue) as [r q' sg|c|p] eqn:Hcall.
    + destruct Hc as (gs' & _ & ->). simpl.
      destruct (call_zero_done _ _ _ _ Hcall) as (-> & H1 & H2 & H3).
      split; [done|]. exists (ext ++ [(i, (o, r))]).
      split; [by rewrite Hext, app_assoc|].
      apply Forall_app. split; [done|]. by repeat constructor.
    + subst sys2. simpl. split; [done|]. by exists ext.
    + subst sys2. simpl. split; [done|]. by exists ext.
Qed.

Lemma zero_capacity_blocks_witness :
  shared (mk_system zero_queue [Calling (OpPut 1) []; Calling OpTryGet []] [])
    = zero_queue /\
  rtc step
    (mk_system zero_queue [Calling (OpPut 1) []; Calling OpTryGet []] [])
    (mk_system zero_queue [Waiting putcv (OpPut 1) []; Finished]
       [(1%nat, (OpTryGet, RIntErr 0 (Some QueueEmpty)))]) /\
  shared (mk_system zero_queue [Waiting putcv (OpPut 1) []; Finished]
            [(1%nat, (OpTryGet, RIntErr 0 (Some QueueEmpty)))]) = zero_queue.
Proof.
  assert (rtc step
    (mk_system zero_queue [Calling (OpPut 1) []; Calling OpTryGet []] [])
    (mk_system zero_queue [Waiting putcv (OpPut 1) []; Finished]
       [(1%nat, (OpTryGet, RIntErr 0 (Some QueueEmpty)))])) as Hsteps.
  { apply (rtc_l _ _ (mk_system zero_queue
             [Waiting putcv (OpPut 1) []; Calling OpTryGet []] []));
      [apply list_elem_of_here|].
    apply (rtc_l _ _ (mk_system zero_queue
             [Calling (OpPut 1) []; Finished]
             [(1%nat, (OpTryGet, RIntErr 0 (Some QueueEmpty)))]));
      [unfold step; vm_compute; apply list_elem_of_here|].
    eapply rtc_l; [|apply rtc_refl].
    unfold step. vm_compute. apply list_elem_of_here. }
  split; [reflexivity|]. split; [exact Hsteps|].
  exact (proj1 (zero_capacity_blocks
                  (mk_system zero_queue
                     [Calling (OpPut 1) []; Calling OpTryGet []] [])
                  _ eq_refl Hsteps)).
Defined.

End Interleavings.

(* ================================================================== *)
(** * Properties of the skeleton queue *)

Section SkeletonQueue.

Lemma inserts_cons x h :
  Skeleton.inserts (x :: h) = Skeleton.inserts [x] + Skeleton.inserts h.
Proof.
  unfold Skeleton.inserts. change (x :: h) with ([x] ++ h).
  by rewrite omap_app, len_app.
Qed.

Lemma removals_cons x h :
  Skeleton.removals (x :: h) = Skeleton.removals [x] + Skeleton.removals h.
Proof.
  unfold Skeleton.removals. change (x :: h) with ([x] ++ h).
  by rewrite omap_app, len_app.
Qed.

(** What the values handed out by the skeleton can be. *)
Lemma skeleton_call q o :
  skeleton_ok q ->
  match Skeleton.call o q with
  | Skeleton.Done r q' s =>
      skeleton_ok q' /\
      Skeleton.capacity q' = Skeleton.capacity q /\
      Skeleton.length q' =
        Skeleton.length q + Skeleton.inserts [(o, r)]
        - Skeleton.removals [(o, r)] /\
      skeleton_reply o r
  | Skeleton.Waits =>
      (exists v, o = Skeleton.OpPut v /\
                 Skeleton.length q = Skeleton.capacity q) \/
      (o = Skeleton.OpGet /\ Skeleton.length q = 0)
  end.
Proof.
  intros [Hl Hc].
  destruct o as [v|v| | | | |];
    unfold Skeleton.call, Skeleton.TryPut, Skeleton.Put, Skeleton.Get,
      Skeleton.TryGet, Skeleton.Len, Skeleton.Cap, Skeleton.String,
      Skeleton.incr, Skeleton.decr, Skeleton.Signal, Skeleton.wait_while,
      Skeleton.gets, Skeleton.modify, mbind, mret, Skeleton.M_bind,
      Skeleton.M_ret, skeleton_ok, skeleton_reply,
      Skeleton.inserts, Skeleton.removals, len;
    cbn [Skeleton.length Skeleton.capacity].
  - destruct (Z.eqb_spec (Skeleton.length q) (Skeleton.capacity q)); simpl.
    + split_and!; try done; lia.
    + rewrite wrap_id by int_lia. split_and!; try done; lia.
  - destruct (Z.eqb_spec (Skeleton.length q) (Skeleton.capacity q)); simpl.
    + left. by exists v.
    + rewrite wrap_id by int_lia. split_and!; try done; lia.
  - destruct (Z.eqb_spec (Skeleton.length q) 0); simpl.
    + by right.
    + rewrite wrap_id by int_lia. split_and!; try done; lia.
  - destruct (Z.ltb_spec 0 (Skeleton.length q)); simpl.
    + rewrite wrap_id by int_lia. split_and!; try lia; try done. by left.
    + split_and!; try lia; try done. by right.
  - simpl. split_and!; try done; lia.
  - simpl. split_and!; try done; lia.
  - simpl. split_and!; try done; lia.
Qed.

(** X13. The skeleton counts but stores nothing.  On a skeleton queue
    whose counters are in range, in any run by one goroutine: [length]
    stays within [0] and [capacity], which never changes, and is the
    length at the start plus the insertions less the removals; and every
    value handed out is the boxed integer 0 whatever was inserted, a
    [TryGet] on the empty queue returning [nil] with [QueueEmpty]. *)
Theorem skeleton_counts_only ops : forall q,
  skeleton_ok q ->
  skeleton_ok (Skeleton.ending_state (Skeleton.run ops q).2) /\
  Skeleton.capacity (Skeleton.ending_state (Skeleton.run ops q).2)
    = Skeleton.capacity q /\
  Skeleton.length (Skeleton.ending_state (Skeleton.run ops q).2)
    = Skeleton.length q + Skeleton.inserts (Skeleton.run ops q).1
      - Skeleton.removals (Skeleton.run ops q).1 /\
  Forall (fun x => skeleton_reply x.1 x.2) (Skeleton.run ops q).1.
Proof.
  induction ops as [|o ops IH]; intros q Hok.
  { simpl. unfold Skeleton.inserts, Skeleton.removals, len. simpl.
    split_and!; try done; lia. }
  simpl. pose proof (skeleton_call q o Hok) as Hc.
  destruct (Skeleton.call o q) as [r q' s|].
  - destruct Hc as (Hok' & Hcap & Hlen & Hv).
    destruct (IH q' Hok') as (H1 & H2 & H3 & H4).
    destruct (Skeleton.run ops q') as [h e]. cbn [fst snd] in *.
    rewrite (inserts_cons (o, r) h), (removals_cons (o, r) h).
    split_and!; [done|congruence|lia|by constructor].
  - simpl. unfold Skeleton.inserts, Skeleton.removals, len. simpl.
    split_and!; try done; lia.
Qed.

Lemma skeleton_counts_only_witness :
  skeleton_ok (Skeleton.NewSkeletonQueue 2) /\
  Forall (fun x => skeleton_reply x.1 x.2)
    (Skeleton.run [Skeleton.OpPut 7; Skeleton.OpGet; Skeleton.OpTryGet]
       (Skeleton.NewSkeletonQueue 2)).1.
Proof.
  assert (skeleton_ok (Skeleton.NewSkeletonQueue 2)) as H
    by (unfold skeleton_ok, int_max; simpl; lia).
  split; [exact H|].
  exact (proj2 (proj2 (proj2 (skeleton_counts_only
    [Skeleton.OpPut 7; Skeleton.OpGet; Skeleton.OpTryGet] _ H)))).
Defined.

Ltac skeleton_body :=
  unfold Skeleton.call, Skeleton.TryPut, Skeleton.Put, Skeleton.Get,
    Skeleton.TryGet, Skeleton.Len, Skeleton.Cap, Skeleton.String,
    Skeleton.incr, Skeleton.decr, Skeleton.Signal, Skeleton.wait_while,
    Skeleton.gets, Skeleton.modify, mbind, mret, Skeleton.M_bind,
    Skeleton.M_ret;
  cbn [Skeleton.length Skeleton.capacity].

(** One call on both queues, their counters being the same. *)
Lemma skeleton_agrees_call qs qn o :
  safe qn -> agree qs qn ->
  match Skeleton.call o qs, call (Skeleton.to_native o) qn with
  | Skeleton.Done rs qs' _, Done rn qn' _ =>
      rs = Skeleton.forget rn o /\ agree qs' qn' /\ safe qn'
  | Skeleton.Waits, Waits _ => True
  | _, _ => False
  end.
Proof.
  intros [Hwf| ->] [Hl Hc].
  - rewrite call_effect by done. pose proof (wf_length _ Hwf) as Hr.
    pose proof (wf_int _ Hwf) as Hi.
    destruct o as [v|v| | | | |]; skeleton_body;
      unfold effect, Skeleton.to_native; rewrite ?Hl, ?Hc.
    + destruct (Z.eqb_spec (length qn) (capacity qn)).
      * split_and!; [done|done|by left].
      * rewrite wrap_id by int_lia. split_and!; [done| |].
        -- split; simpl; lia.
        -- left. apply wf_insert; [done|lia].
    + destruct (Z.eqb_spec (length qn) (capacity qn)); [done|].
      rewrite wrap_id by int_lia. split_and!; [done| |].
      * split; simpl; lia.
      * left. apply wf_insert; [done|lia].
    + destruct (Z.eqb_spec (length qn) 0); [done|].
      rewrite wrap_id by int_lia. split_and!; [done| |].
      * split; simpl; lia.
      * left. apply wf_remove; [done|lia].
    + destruct (Z.ltb_spec 0 (length qn)), (Z.eqb_spec (length qn) 0);
        try lia.
      * rewrite wrap_id by int_lia. split_and!; [done| |].
        -- split; simpl; lia.
        -- left. apply wf_remove; [done|lia].
      * split_and!; [done|done|by left].
    + split_and!; [done|done|by left].
    + split_and!; [done|done|by left].
    + split_and!; [done|done|by left].
  - destruct qs as [ls cs]. simpl in Hl, Hc. subst ls cs.
    destruct o; simpl; split_and?; try done; by right.
Qed.

Lemma skeleton_agrees_run ops : forall qs qn,
  safe qn -> agree qs qn ->
  (Skeleton.run ops qs).1
    = forget_history ops (run (Skeleton.to_native <$> ops) qn).1 /\
  endings_agree (Skeleton.run ops qs).2
    (run (Skeleton.to_native <$> ops) qn).2.
Proof.
  induction ops as [|o ops IH]; intros qs qn Hs Ha; [done|].
  pose proof (skeleton_agrees_call qs qn o Hs Ha) as Hc.
  cbn [fmap list_fmap Skeleton.run run].
  destruct (Skeleton.call o qs) as [rs qs' ss|],
    (call (Skeleton.to_native o) qn) as [rn qn' sn|c|p]; try done.
  destruct Hc as (-> & Ha' & Hs').
  destruct (IH qs' qn' Hs' Ha') as [Hh He].
  destruct (Skeleton.run ops qs') as [hs es].
  destruct (run (Skeleton.to_native <$> ops) qn') as [hn en].
  cbn [fst snd] in *. split; [|done].
  unfold forget_history in *. simpl. by rewrite Hh.
Qed.

(** X14. The skeleton is the queue with its values forgotten.  Made with
    the same size [n >= 0] and given the same calls, the skeleton and the
    queue with a buffer return, block and report [QueueFull] and
    [QueueEmpty] at the same calls, give the same replies to [Len] and
    [Cap], and end with the same [length]; the replies differ only in
    the values handed out (always the boxed 0) and in the summary (always
    empty). *)
Theorem skeleton_is_queue_without_values n ops :
  0 <= n <= int_max ->
  exists qn,
    NewNativeQueue n = inr qn /\
    (Skeleton.run ops (Skeleton.NewSkeletonQueue n)).1
      = forget_history ops (run (Skeleton.to_native <$> ops) qn).1 /\
    endings_agree (Skeleton.run ops (Skeleton.NewSkeletonQueue n)).2
      (run (Skeleton.to_native <$> ops) qn).2.
Proof.
  intros Hn. eexists. split; [apply NewNativeQueue_ok; lia|].
  apply skeleton_agrees_run; [|done].
  destruct (decide (n = 0)) as [->|Hne]; [by right|].
  left. apply NewNativeQueue_wf. lia.
Qed.

Lemma skeleton_is_queue_without_values_witness :
  0 <= 1 <= int_max /\
  exists qn,
    NewNativeQueue 1 = inr qn /\
    (Skeleton.run [Skeleton.OpPut 7; Skeleton.OpTryPut 8; Skeleton.OpGet]
       (Skeleton.NewSkeletonQueue 1)).1
      = forget_history
          [Skeleton.OpPut 7; Skeleton.OpTryPut 8; Skeleton.OpGet]
          (run [OpPut 7; OpTryPut 8; OpGet] qn).1.
Proof.
  assert (0 <= 1 <= int_max) as H by (unfold int_max; lia).
  split; [exact H|].
  destruct (skeleton_is_queue_without_values 1
    [Skeleton.OpPut 7; Skeleton.OpTryPut 8; Skeleton.OpGet] H)
    as (qn & H0 & H1 & _).
  exists qn. split; [exact H0 | exact H1].
Defined.

Lemma skeleton_try_puts size vs : forall k,
  size < 0 -> 0 <= k -> k + len vs <= int_max ->
  Skeleton.run (Skeleton.OpTryPut <$> vs) (Skeleton.mk k size) =
    ((fun v => (Skeleton.OpTryPut v, Skeleton.RErr None)) <$> vs,
     Skeleton.Idle (Skeleton.mk (k + len vs) size)).
Proof.
  induction vs as [|v vs IH]; intros k Hs Hk Hm.
  { unfold len. simpl. by rewrite Z.add_0_r. }
  assert (len (v :: vs) = 1 + len vs) as Hv by (unfold len; simpl; lia).
  pose proof (Nat2Z.is_nonneg (Datatypes.length vs)) as Hnn.
  fold (len vs) in Hnn.
  cbn [fmap list_fmap Skeleton.run]. skeleton_body.
  destruct (Z.eqb_spec k size); [lia|]. simpl.
  rewrite wrap_id by int_lia. rewrite IH by lia.
  rewrite Hv. do 3 f_equal. lia.
Qed.

(** X15. A negative size is not refused and removes the bound.  Unlike
    [NewNativeQueue], [NewSkeletonQueue] accepts a negative size; on the
    queue it returns every [TryPut] succeeds (as long as the counter does
    not overflow), so [Len()] grows beyond [Cap()], which stays at the
    negative size. *)
Theorem skeleton_negative_size_unbounded size vs :
  size < 0 -> len vs <= int_max ->
  Skeleton.run (Skeleton.OpTryPut <$> vs) (Skeleton.NewSkeletonQueue size) =
    ((fun v => (Skeleton.OpTryPut v, Skeleton.RErr None)) <$> vs,
     Skeleton.Idle (Skeleton.mk (len vs) size)) /\
  Skeleton.Cap (Skeleton.mk (len vs) size) =
    Skeleton.Done size (Skeleton.mk (len vs) size) 0%nat /\
  Skeleton.Len (Skeleton.mk (len vs) size) =
    Skeleton.Done (len vs) (Skeleton.mk (len vs) size) 0%nat.
Proof.
  intros Hs Hm. split; [|done].
  unfold Skeleton.NewSkeletonQueue.
  rewrite skeleton_try_puts by lia. by rewrite Z.add_0_l.
Qed.

Lemma skeleton_negative_size_unbounded_witness :
  -1 < 0 /\ len [5; 6] <= int_max /\
  Skeleton.run [Skeleton.OpTryPut 5; Skeleton.OpTryPut 6]
    (Skeleton.NewSkeletonQueue (-1)) =
    ([(Skeleton.OpTryPut 5, Skeleton.RErr None);
      (Skeleton.OpTryPut 6, Skeleton.RErr None)],
     Skeleton.Idle (Skeleton.mk 2 (-1))).
Proof.
  assert (-1 < 0) as H1 by lia.
  assert (len [5; 6] <= int_max) as H2
    by (unfold len, int_max; simpl; lia).
  split; [exact H1|]. split; [exact H2|].
  exact (proj1 (skeleton_negative_size_unbounded (-1) [5; 6] H1 H2)).
Defined.

End SkeletonQueue.
